(** * textmation: the property system, the element tree and the renderer

    A shallow embedding of [textmation/element.py] and
    [textmation/renderer.py].  Python objects that are mutated in place are
    modelled by explicit state passing; a call returns its outcome together
    with the state it leaves behind, so that what an exception leaves of
    the state stays visible. *)

From Stdlib Require Import ZArith QArith.
From stdpp Require Import gmap strings list fin_maps.

Local Open Scope Z_scope.
Set Warnings "-register-all".

(** ** The host language *)

Module Python.

(** The exceptions the two files can raise.  [assert] raises
    [AssertionError]; a missing dictionary key [KeyError]; a missing
    attribute or method [AttributeError]; [l[-1]] and [l.pop()] on an empty
    list [IndexError]; [a / 0] [ZeroDivisionError]. *)
Inductive Exception :=
| AssertionError
| KeyError
| AttributeError
| IndexError
| ZeroDivisionError.

Inductive Result (A : Type) :=
| Ok (a : A)
| Raise (e : Exception).
Arguments Ok {A} a.
Arguments Raise {A} e.

Definition raised {A} (r : Result A) : bool :=
  match r with Ok _ => false | Raise _ => true end.

(** A method of a mutable object [S]: the outcome and the object as the
    call leaves it, also when the call raises. *)
Definition M (S A : Type) : Type := S -> Result A * S.

Definition ret {S A} (a : A) : M S A := fun s => (Ok a, s).
Definition raise {S A} (e : Exception) : M S A := fun s => (Raise e, s).
Definition bind {S A B} (m : M S A) (k : A -> M S B) : M S B :=
  fun s => match m s with
           | (Ok a, s') => k a s'
           | (Raise e, s') => (Raise e, s')
           end.
Definition gets {S A} (f : S -> A) : M S A := fun s => (Ok (f s), s).
Definition modify {S} (f : S -> S) : M S unit := fun s => (Ok tt, f s).
(** the outcome of a call that has no object to change *)
Definition lift {S A} (r : Result A) : M S A := fun s => (r, s).
(** [assert b] *)
Definition assert {S} (b : bool) : M S unit :=
  if b then ret tt else raise AssertionError.

Declare Scope py_scope.
Delimit Scope py_scope with py.
Notation "x <- m ;; k" := (bind m (fun x => k))
  (at level 100, m at next level, right associativity) : py_scope.
Notation "m ;; k" := (bind m (fun _ => k))
  (at level 100, right associativity) : py_scope.

(** The classes the two files name.  The first six are the host
    language's; [c_Type], [c_Number] and [c_String] come from
    [datatypes.py], [c_Point] from [properties.py], [c_Element] and
    [c_ElementProperty] from [element.py], the rest from [elements.py]. *)
Inductive PyClass :=
| c_object | c_NoneType | c_bool | c_int | c_float | c_str
| c_Type | c_Number | c_String | c_Point | c_Color
| c_ElementProperty
| c_Element | c_Scene | c_Group | c_Rectangle | c_Circle | c_Ellipse
| c_Line | c_Text.

#[export] Instance PyClass_eq_dec : EqDecision PyClass.
Proof. solve_decision. Defined.

(** Modelled from the spec: the class hierarchy of [datatypes.py],
    [properties.py] and [elements.py], which are not in the source tree.
    [element.py] itself fixes [class Element(Type)], and that [Number] and
    [String] are [Type]s ([define] asserts it right after boxing);
    [renderer.py] asserts that what it renders is an [Element] and that the
    root is a [Scene].  The list is the class's proper ancestors, nearest
    first. *)
Definition superclasses (c : PyClass) : list PyClass :=
  match c with
  | c_object => []
  | c_bool => [c_int; c_object]
  | c_NoneType | c_int | c_float | c_str | c_Type | c_ElementProperty => [c_object]
  | c_Number | c_String | c_Point | c_Color | c_Element => [c_Type; c_object]
  | c_Scene | c_Group | c_Rectangle | c_Circle | c_Ellipse | c_Line | c_Text =>
      [c_Element; c_Type; c_object]
  end.

Definition issubclass (c d : PyClass) : bool :=
  bool_decide (c = d) || bool_decide (d ∈ superclasses c).

(** Python objects, as far as [element.py] tells them apart: the raw
    literals of the host language, the two boxes [Number(_)] and
    [String(_)], and any other object, known by its class and its
    identity.  A float is modelled by the rational it denotes. *)
Inductive PyValue :=
| PyNone
| PyBool (b : bool)
| PyInt (n : Z)
| PyFloat (q : Q)
| PyStr (s : string)
| Number (raw : PyValue)
| String (raw : PyValue)
| Obj (c : PyClass) (id : nat).

(** [type(v)] *)
Definition type (v : PyValue) : PyClass :=
  match v with
  | PyNone => c_NoneType
  | PyBool _ => c_bool
  | PyInt _ => c_int
  | PyFloat _ => c_float
  | PyStr _ => c_str
  | Number _ => c_Number
  | String _ => c_String
  | Obj c _ => c
  end.

(** [isinstance(v, c)] and [isinstance(v, (c1, ..., cn))] *)
Definition isinstance (v : PyValue) (c : PyClass) : bool := issubclass (type v) c.
Definition isinstance_any (v : PyValue) (cs : list PyClass) : bool :=
  existsb (isinstance v) cs.

End Python.
Import Python.
Local Open Scope py_scope.

(** ** element.py *)

Module ElementProperty.

(** [class ElementProperty]: [relative] is [PyNone] or a reference to
    another property object. *)
Record t := mk {
  name : string;
  value : PyValue;
  types : list PyClass;
  relative : PyValue
}.

Definition set_value (v : PyValue) (self : t) : t :=
  mk (name self) v (types self) (relative self).

(** [def get(self)]; [eval] and [__repr__] call into [datatypes.py] and
    are left out. *)
Definition get : M t PyValue := gets value.

(** [def set(self, value)] *)
Definition set (v : PyValue) : M t unit :=
  tys <- gets types ;;
  assert (isinstance_any v tys) ;;
  modify (set_value v).

(** [def __init__(self, name, value, types, *, relative=None)]: the
    object under construction exists only for the constructor; when
    [self.set(value)] raises, no object is returned.  [name] is a [str] and
    [types] a tuple by their types here. *)
Definition __init__ (name : string) (v : PyValue) (types : list PyClass)
    (relative : PyValue) : Result t :=
  if negb (forallb (fun ty => issubclass ty c_Type) types) then Raise AssertionError
  else if negb (match relative with
                | PyNone => true
                | _ => isinstance relative c_ElementProperty
                end) then Raise AssertionError
  else
    let self := mk name PyNone types relative in
    match set v self with
    | (Ok _, self') => Ok self'
    | (Raise e, _) => Raise e
    end.

End ElementProperty.

Module Element.

(** Objects are referred to by their identity. *)
Definition addr := nat.

(** [class Element(Type)]: the property dictionary, the children in
    paint order and the parent reference. *)
Record t := mk {
  _properties : gmap string ElementProperty.t;
  _children : list addr;
  _parent : option addr
}.

Definition set_properties (ps : gmap string ElementProperty.t) (self : t) : t :=
  mk ps (_children self) (_parent self).
Definition set_children (cs : list addr) (self : t) : t :=
  mk (_properties self) cs (_parent self).
Definition set_parent (p : option addr) (self : t) : t :=
  mk (_properties self) (_children self) p.

(** [def __init__(self)] *)
Definition __init__ : t := mk ∅ [] None.

(** The coercion both [define] and [set] start with:
<<
    if isinstance(value, (int, float)): value = Number(value)
    elif isinstance(value, str):        value = String(value)
>> *)
Definition box (v : PyValue) : PyValue :=
  if isinstance_any v [c_int; c_float] then Number v
  else if isinstance v c_str then String v
  else v.

(** The [types] argument of [define]: left out, one class, or a tuple. *)
Inductive TypesArg :=
| NoTypes
| OneType (c : PyClass)
| TypeTuple (cs : list PyClass).

(** The tuple of allowed types [define] makes of its [types] argument:
<<
    if types is None:                  types = type(value),
    elif not isinstance(types, tuple): types = types,
>> *)
Definition declared_types (ty : TypesArg) (v : PyValue) : list PyClass :=
  match ty with
  | NoTypes => [type v]
  | OneType c => [c]
  | TypeTuple cs => cs
  end.

(** [def define(self, name, value, types=None, *, relative=None)] *)
Definition define (name : string) (v : PyValue) (types : TypesArg)
    (relative : PyValue) : M t unit :=
  let v := box v in
  assert (isinstance v c_Type) ;;
  props <- gets _properties ;;
  assert (negb (bool_decide (is_Some (props !! name)))) ;;
  let types := declared_types types v in
  property <- lift (ElementProperty.__init__ name v types relative) ;;
  modify (fun self => set_properties (<[name := property]> (_properties self)) self).

(** [def get(self, name)]: [self._properties[name]] *)
Definition get (name : string) : M t ElementProperty.t :=
  props <- gets _properties ;;
  match props !! name with
  | Some p => ret p
  | None => raise KeyError
  end.

(** [def set(self, name, value)]: the property object is changed in
    place, inside the dictionary. *)
Definition set (name : string) (v : PyValue) : M t unit :=
  props <- gets _properties ;;
  assert (bool_decide (is_Some (props !! name))) ;;
  let v := box v in
  p <- get name ;;
  fun self =>
    let '(r, p') := ElementProperty.set v p in
    (r, set_properties (<[name := p']> (_properties self)) self).

(** [def has(self, name)] *)
Definition has (name : string) : M t bool :=
  props <- gets _properties ;;
  ret (bool_decide (is_Some (props !! name))).

(** A property as its constructor leaves it: only [Type]s are allowed, and
    the value is an instance of one of the allowed types. *)
Definition well_typed (p : ElementProperty.t) : Prop :=
  forallb (fun ty => issubclass ty c_Type) (ElementProperty.types p) = true /\
  isinstance_any (ElementProperty.value p) (ElementProperty.types p) = true.

Definition all_well_typed (e : t) : Prop :=
  forall n p, _properties e !! n = Some p -> well_typed p.

(** Elements live in a store and refer to each other by address; an
    address the store does not hold is an object that is no [Element].
    A method call [self.m(...)] on the element at [self]: *)
Definition on {A} (self : addr) (m : M t A) : M (gmap addr t) A :=
  fun h =>
    match h !! self with
    | None => (Raise AttributeError, h)
    | Some e => let '(r, e') := m e in (r, <[self := e']> h)
    end.

(** [def add(self, element)] *)
Definition add (self element : addr) : M (gmap addr t) unit :=
  h <- gets id ;;
  match h !! self with
  | None => raise AttributeError
  | Some _ =>
      assert (bool_decide (is_Some (h !! element))) ;;
      assert (bool_decide ((h !! element) ≫= _parent = None)) ;;
      modify (alter (set_parent (Some self)) element) ;;
      modify (alter (fun s => set_children (_children s ++ [element]) s) self)
  end.

(** The ownership graph of a store: the parent an element refers to, the
    children an element lists, and the elements reached from an element
    through one or more child lists. *)
Definition parent_of (h : gmap addr t) (c : addr) : option addr :=
  h !! c ≫= _parent.
Definition children_of (h : gmap addr t) (p : addr) : list addr :=
  default [] (_children <$> h !! p).

Inductive descendant (h : gmap addr t) : addr -> addr -> Prop :=
| descendant_child (p c : addr) :
    c ∈ children_of h p -> descendant h p c
| descendant_step (p c d : addr) :
    c ∈ children_of h p -> descendant h c d -> descendant h p d.

Definition acyclic (h : gmap addr t) : Prop :=
  forall a, ~ descendant h a a.

(** An element of the store that has no parent. *)
Definition parentless (h : gmap addr t) (c : addr) : Prop :=
  is_Some (h !! c) /\ parent_of h c = None.

(** Parent references and child lists tell the same story, and no child
    is listed twice. *)
Definition consistent (h : gmap addr t) : Prop :=
  (forall p c, c ∈ children_of h p <-> parent_of h c = Some p) /\
  (forall p, NoDup (children_of h p)).

(** A sequence of [add] calls, each [(self, element)], none of which adds
    an element to itself or to one of its own descendants. *)
Fixpoint guarded (h : gmap addr t) (adds : list (addr * addr)) : Prop :=
  match adds with
  | [] => True
  | (p, c) :: rest =>
      c <> p /\ ~ descendant h c p /\ guarded (snd (add p c h)) rest
  end.

(** The calls a client can make on the elements of a store. *)
Inductive Call :=
| CDefine (self : addr) (name : string) (v : PyValue) (types : TypesArg)
    (relative : PyValue)
| CGet (self : addr) (name : string)
| CSet (self : addr) (name : string) (v : PyValue)
| CHas (self : addr) (name : string)
| CAdd (self element : addr).

(** What a call leaves of the store, and whether it raised. *)
Definition exec (c : Call) (h : gmap addr t) : bool * gmap addr t :=
  match c with
  | CDefine self n v ty rel => let '(r, h') := on self (define n v ty rel) h in (raised r, h')
  | CGet self n => let '(r, h') := on self (get n) h in (raised r, h')
  | CSet self n v => let '(r, h') := on self (set n v) h in (raised r, h')
  | CHas self n => let '(r, h') := on self (has n) h in (raised r, h')
  | CAdd self c => let '(r, h') := add self c h in (raised r, h')
  end.

(** A client that goes on after a failed call (it catches the exception). *)
Definition run (cs : list Call) (h : gmap addr t) : gmap addr t :=
  foldl (fun h c => snd (exec c h)) h cs.

(** The calls on one element, for the life of its property dictionary. *)
Inductive PropCall :=
| PDefine (name : string) (v : PyValue) (types : TypesArg) (relative : PyValue)
| PSet (name : string) (v : PyValue).

Definition exec_prop (c : PropCall) (e : t) : t :=
  match c with
  | PDefine n v ty rel => snd (define n v ty rel e)
  | PSet n v => snd (set n v e)
  end.

End Element.

(** ** renderer.py *)

Module renderer.

(** Modelled from the spec: [Point] of [properties.py] and the geometry a
    handler adds the translation to, which are not in the source tree.  A
    point is a pair of coordinates, added componentwise; bounds are an
    origin and an extent, and [point + bounds] moves the origin. *)
Inductive Point := point (x y : Z).

Definition Point_add (p q : Point) : Point :=
  match p, q with point a b, point c d => point (a + c) (b + d) end.

Inductive Bounds := bounds_at (origin : Point) (width height : Z).

Definition Point_add_Bounds (p : Point) (b : Bounds) : Bounds :=
  match b with bounds_at o w h => bounds_at (Point_add p o) w h end.

Inductive Color := rgba (r g b a : Z).

(** Modelled from the spec: the raster collaborator of [rasterizer.py]
    (section 6 of the spec), which is not in the source tree.  An image is
    what [Image.new] was given and the drawing calls made on it since, in
    order; [Font.load] returns the font of a family and a size. *)
Inductive Font := Font_load (family : string) (size : Z).

Inductive DrawCall :=
| draw_rect (bounds : Bounds) (fill outline : Color) (outline_width : Z)
| draw_circle (center : Point) (radius : Z) (fill outline : Color)
    (outline_width : Z)
| draw_ellipse (center : Point) (radius_x radius_y : Z) (fill outline : Color)
    (outline_width : Z)
| draw_line (start_point end_point : Point) (color : Color) (width : Z)
| draw_text (text : string) (position : Point) (color : Color) (font : Font)
    (anchor alignment : string).

Record Image := mkImage {
  image_size : Point;
  image_background : Color;
  image_calls : list DrawCall
}.

Definition Image_new (size : Point) (background : Color) : Image :=
  mkImage size background [].
Definition Image_draw (c : DrawCall) (img : Image) : Image :=
  mkImage (image_size img) (image_background img) (image_calls img ++ [c]).

(** Modelled from the spec: the element variants of [elements.py], which
    is not in the source tree, each with the attributes the renderer reads
    from it and its [children].  [Other] is an element whose class has no
    [_render_<class name>] method; the model takes such a class not to
    derive from [Scene]. *)
Inductive Element :=
| Scene (size : Point) (background : Color) (duration frame_rate : Z)
    (children : list Element)
| Group (position : Point) (children : list Element)
| Rectangle (bounds : Bounds) (color outline_color : Color) (outline_width : Z)
    (children : list Element)
| Circle (center : Point) (radius : Z) (color outline_color : Color)
    (outline_width : Z) (children : list Element)
| Ellipse (center : Point) (radius_x radius_y : Z) (color outline_color : Color)
    (outline_width : Z) (children : list Element)
| Line (start_point end_point : Point) (color : Color) (width : Z)
    (children : list Element)
| Text (text font : string) (font_size : Z) (position : Point) (color : Color)
    (anchor alignment : string) (children : list Element)
| Other (class_name : string) (children : list Element).

(** [element.children] *)
Definition children (e : Element) : list Element :=
  match e with
  | Scene _ _ _ _ cs | Group _ cs | Rectangle _ _ _ _ cs | Circle _ _ _ _ _ cs
  | Ellipse _ _ _ _ _ _ cs | Line _ _ _ _ cs | Text _ _ _ _ _ _ _ cs
  | Other _ cs => cs
  end.

(** [isinstance(element, Scene)], among the elements above: the class
    [Scene] itself, since no other variant derives from it. *)
Definition is_Scene (e : Element) : bool :=
  match e with Scene _ _ _ _ _ => true | _ => false end.

(** The element's own class has a handler. *)
Definition handled (e : Element) : bool :=
  match e with Other _ _ => false | _ => true end.

(** [range(n)] *)
Definition range (n : Z) : list Z := seqZ 0 n.

(** [a / b] on integers.  Python returns the double nearest to the
    quotient; [quotient a b] stands for that value and is the quotient
    itself, so that it tells which two integers were divided and no more:
    the rounding to a double is not modelled, and nothing is to be read
    from the arithmetic of [quotient] beyond [0 / b] being zero. *)
Definition quotient (a b : Z) : Q := Qred (Qdiv (inject_Z a) (inject_Z b)).
Definition truediv (a b : Z) : Result Q :=
  if b =? 0 then Raise ZeroDivisionError else Ok (quotient a b).

(** [def calc_frame_count(duration, frame_rate, *, inclusive=False)] *)
Definition calc_frame_count (duration frame_rate : Z) (inclusive : bool) : Z :=
  let frames := duration * frame_rate in
  if inclusive then frames + 1 else frames.

(** A generator that ends: what it yields, one item at a time, until it
    is exhausted or raises. *)
Inductive Generator (A : Type) :=
| Stop
| Yield (a : A) (rest : Generator A)
| Throw (e : Exception).
Arguments Stop {A}.
Arguments Yield {A} a rest.
Arguments Throw {A} e.

(** The items of a generator that never raises. *)
Fixpoint yields {A} (l : list A) : Generator A :=
  match l with
  | [] => Stop
  | a :: l' => Yield a (yields l')
  end.

(** The body of [iter_frame_time], over the frames still to come. *)
Fixpoint frame_times (frames : list Z) (frame_rate : Z) : Generator (Z * Q) :=
  match frames with
  | [] => Stop
  | frame :: frames' =>
      match truediv frame frame_rate with
      | Raise e => Throw e
      | Ok time => Yield (frame, time) (frame_times frames' frame_rate)
      end
  end.

(** [def iter_frame_time(duration, frame_rate, *, inclusive=False)] *)
Definition iter_frame_time (duration frame_rate : Z) (inclusive : bool)
    : Generator (Z * Q) :=
  frame_times (range (calc_frame_count duration frame_rate inclusive)) frame_rate.

(** What a handler paints, in the spec's words: a function of the
    accumulated translation, without a stack.  A scene starts a new image;
    a group paints its children at [translation + position]; a shape draws
    at the translation composed with its own geometry and then paints its
    children at the same translation. *)
Fixpoint paint (tr : Point) (element : Element) (image : option Image)
    : option Image :=
  let paint_children :=
    fix loop (tr : Point) (children : list Element) (image : option Image) :=
      match children with
      | [] => image
      | child :: rest => loop tr rest (paint tr child image)
      end in
  match element with
  | Scene size background _ _ children =>
      paint_children tr children (Some (Image_new size background))
  | Group position children => paint_children (Point_add tr position) children image
  | Rectangle bounds color outline_color outline_width children =>
      paint_children tr children
        (Image_draw (draw_rect (Point_add_Bounds tr bounds) color outline_color
                       outline_width) <$> image)
  | Circle center radius color outline_color outline_width children =>
      paint_children tr children
        (Image_draw (draw_circle (Point_add tr center) radius color outline_color
                       outline_width) <$> image)
  | Ellipse center radius_x radius_y color outline_color outline_width children =>
      paint_children tr children
        (Image_draw (draw_ellipse (Point_add tr center) radius_x radius_y color
                       outline_color outline_width) <$> image)
  | Line start_point end_point color width children =>
      paint_children tr children
        (Image_draw (draw_line (Point_add tr start_point) (Point_add tr end_point)
                       color width) <$> image)
  | Text text font font_size position color anchor alignment children =>
      paint_children tr children
        (Image_draw (draw_text text (Point_add tr position) color
                       (Font_load font font_size) anchor alignment) <$> image)
  | Other _ _ => image
  end.

Fixpoint paint_children (tr : Point) (children : list Element)
    (image : option Image) : option Image :=
  match children with
  | [] => image
  | child :: rest => paint_children tr rest (paint tr child image)
  end.

(** Every class in the tree has a handler. *)
Fixpoint renderable (element : Element) : bool :=
  match element with
  | Scene _ _ _ _ children | Group _ children | Rectangle _ _ _ _ children
  | Circle _ _ _ _ _ children | Ellipse _ _ _ _ _ _ children
  | Line _ _ _ _ children | Text _ _ _ _ _ _ _ children =>
      forallb renderable children
  | Other _ _ => false
  end.

(** No scene below the root: nothing in the tree starts a new image. *)
Fixpoint scene_free (element : Element) : bool :=
  match element with
  | Scene _ _ _ _ _ => false
  | Group _ children | Rectangle _ _ _ _ children | Circle _ _ _ _ _ children
  | Ellipse _ _ _ _ _ _ children | Line _ _ _ _ children
  | Text _ _ _ _ _ _ _ children | Other _ children =>
      forallb scene_free children
  end.

(** The drawing calls of a subtree at a translation, parent before
    children and children in their order. *)
Fixpoint draw_calls (tr : Point) (element : Element) : list DrawCall :=
  let children_calls :=
    fix loop (tr : Point) (children : list Element) : list DrawCall :=
      match children with
      | [] => []
      | child :: rest => draw_calls tr child ++ loop tr rest
      end in
  match element with
  | Scene _ _ _ _ children => children_calls tr children
  | Group position children => children_calls (Point_add tr position) children
  | Rectangle bounds color outline_color outline_width children =>
      draw_rect (Point_add_Bounds tr bounds) color outline_color outline_width
      :: children_calls tr children
  | Circle center radius color outline_color outline_width children =>
      draw_circle (Point_add tr center) radius color outline_color outline_width
      :: children_calls tr children
  | Ellipse center radius_x radius_y color outline_color outline_width children =>
      draw_ellipse (Point_add tr center) radius_x radius_y color outline_color
        outline_width
      :: children_calls tr children
  | Line start_point end_point color width children =>
      draw_line (Point_add tr start_point) (Point_add tr end_point) color width
      :: children_calls tr children
  | Text text font font_size position color anchor alignment children =>
      draw_text text (Point_add tr position) color (Font_load font font_size)
        anchor alignment
      :: children_calls tr children
  | Other _ _ => []
  end.

Fixpoint children_calls (tr : Point) (children : list Element) : list DrawCall :=
  match children with
  | [] => []
  | child :: rest => draw_calls tr child ++ children_calls tr rest
  end.

(** An image after further drawing calls. *)
Definition Image_draws (calls : list DrawCall) (img : Image) : Image :=
  mkImage (image_size img) (image_background img) (image_calls img ++ calls).

Module Renderer.

(** [class Renderer]: [_translations] is kept as the Python list is, the
    current translation last. *)
Record t := mk {
  _image : option Image;
  _translations : list Point
}.

Definition set_image (i : option Image) (self : t) : t := mk i (_translations self).
Definition set_translations (ts : list Point) (self : t) : t := mk (_image self) ts.

(** [def __init__(self)] *)
Definition __init__ : t := mk None [point 0 0].

(** [def translation(self)]: [self._translations[-1]] *)
Definition translation : M t Point :=
  ts <- gets _translations ;;
  match last ts with
  | Some p => ret p
  | None => raise IndexError
  end.

(** [self._translations.pop()] *)
Definition pop : M t unit :=
  ts <- gets _translations ;;
  match ts with
  | [] => raise IndexError
  | _ => modify (set_translations (removelast ts))
  end.

(** [def translate(self, offset)], a context manager without
    [try]/[finally], around the body of its [with] statement: an exception
    of the body comes out of the [yield] and ends the generator there. *)
Definition translate {A} (offset : Point) (body : M t A) : M t A :=
  tr <- translation ;;
  modify (fun self => set_translations (_translations self ++ [Point_add tr offset]) self) ;;
  a <- body ;;
  pop ;;
  ret a.

(** [self._image.draw_...(...)] with arguments that read
    [self.translation]: the method is looked up on [self._image] first. *)
Definition draw (call : Point -> DrawCall) : M t unit :=
  image <- gets _image ;;
  match image with
  | None => raise AttributeError
  | Some img =>
      tr <- translation ;;
      modify (set_image (Some (Image_draw (call tr) img)))
  end.

(** [def _render(self, element)] with the handlers it dispatches to by
    class name, and [_render_children]. *)
Fixpoint _render (element : Element) : M t (option Image) :=
  let _render_children :=
    fix loop (children : list Element) : M t unit :=
      match children with
      | [] => ret tt
      | child :: rest => _render child ;; loop rest
      end in
  match element with
  | Scene size background _ _ children =>
      modify (set_image (Some (Image_new size background))) ;;
      _render_children children ;;
      gets _image
  | Group position children =>
      translate position (_render_children children) ;;
      ret None
  | Rectangle bounds color outline_color outline_width children =>
      draw (fun tr => draw_rect (Point_add_Bounds tr bounds) color outline_color
                        outline_width) ;;
      _render_children children ;;
      ret None
  | Circle center radius color outline_color outline_width children =>
      draw (fun tr => draw_circle (Point_add tr center) radius color outline_color
                        outline_width) ;;
      _render_children children ;;
      ret None
  | Ellipse center radius_x radius_y color outline_color outline_width children =>
      draw (fun tr => draw_ellipse (Point_add tr center) radius_x radius_y color
                        outline_color outline_width) ;;
      _render_children children ;;
      ret None
  | Line start_point end_point color width children =>
      draw (fun tr => draw_line (Point_add tr start_point) (Point_add tr end_point)
                        color width) ;;
      _render_children children ;;
      ret None
  | Text text font font_size position color anchor alignment children =>
      let font := Font_load font font_size in
      draw (fun tr => draw_text text (Point_add tr position) color font anchor
                        alignment) ;;
      _render_children children ;;
      ret None
  | Other _ _ => raise AttributeError
  end.

(** [def _render_children(self, element)] *)
Fixpoint _render_children (children : list Element) : M t unit :=
  match children with
  | [] => ret tt
  | child :: rest => _render child ;; _render_children rest
  end.

(** [def render(self, element)] *)
Definition render (element : Element) : M t Image :=
  assert (is_Scene element) ;;
  image <- _render element ;;
  match image with
  | Some img => ret img
  | None => raise AssertionError
  end.

(** What the five shape handlers share. *)
Definition shape (call : Point -> DrawCall) (cs : list Element) : M t (option Image) :=
  draw call ;; _render_children cs ;; ret None.

(** A shape handler once the translation is known: one drawing call on
    the image, then the children on the same stack. *)
Definition drawn (call : DrawCall) (cs : list Element) (r : t)
    : Result (option Image) * t :=
  match _image r with
  | None => (Raise AttributeError, r)
  | Some img =>
      match _render_children cs (set_image (Some (Image_draw call img)) r) with
      | (Ok _, r2) => (Ok None, r2)
      | (Raise e, r2) => (Raise e, r2)
      end
  end.

(** What a call leaves of the stack: all of it when it returns; when it
    raises, all of it and what enclosing [translate]s had pushed. *)
Definition stack_kept {A} (r : t) (out : Result A * t) : Prop :=
  match out with
  | (Ok _, r') => _translations r' = _translations r
  | (Raise _, r') => exists extra, _translations r' = _translations r ++ extra
  end.

Definition render_spec (e : Element) : Prop :=
  forall r,
    stack_kept r (_render e r) /\
    forall v r' tr,
      _render e r = (Ok v, r') ->
      last (_translations r) = Some tr ->
      _image r' = paint tr e (_image r).

Definition children_spec (cs : list Element) : Prop :=
  forall r,
    stack_kept r (_render_children cs r) /\
    forall u r' tr,
      _render_children cs r = (Ok u, r') ->
      last (_translations r) = Some tr ->
      _image r' = paint_children tr cs (_image r).

(** When every class has a handler and there is an image to draw on,
    rendering returns. *)
Definition render_total (e : Element) : Prop :=
  renderable e = true ->
  forall r,
    is_Some (_image r) \/ is_Scene e = true ->
    _translations r <> [] ->
    exists v r', _render e r = (Ok v, r') /\ is_Some (_image r') /\
                 (is_Scene e = true -> v = _image r').

Definition children_total (cs : list Element) : Prop :=
  forallb renderable cs = true ->
  forall r,
    is_Some (_image r) ->
    _translations r <> [] ->
    exists r', _render_children cs r = (Ok tt, r') /\ is_Some (_image r').

End Renderer.

(** What happens to the scene and the renderer during a run of the
    driver, in order: [scene.reset()], [scene.compute(time)], and
    [renderer.render(scene)] with its outcome and the renderer as the call
    leaves it. *)
Inductive Event :=
| ev_reset
| ev_compute (time : Q)
| ev_render (outcome : Result Image) (after : Renderer.t).

(** One turn of the frame loop as the history shows it: the time the scene
    was computed for, the image collected, and the renderer after it. *)
Record Step := mkStep {
  step_time : Q;
  step_image : Image;
  step_renderer : Renderer.t
}.

Definition step_events (st : Step) : list Event :=
  [ev_compute (step_time st); ev_render (Ok (step_image st)) (step_renderer st)].

Section Driver.

(** The scene object with [reset] and [compute] of [elements.py], which is
    not in the source tree: any mutable object, with what the renderer
    reads from it after a call. *)
Variable SceneObj : Type.
Variable reset : SceneObj -> SceneObj.
Variable compute : Q -> SceneObj -> SceneObj.
Variable view : SceneObj -> Element.

(** The objects a driver function works on: the scene, the renderer it
    uses, and the history of the calls made on them. *)
Record World := mkWorld {
  scene : SceneObj;
  the_renderer : Renderer.t;
  history : list Event
}.

(** [scene.duration], [scene.frame_rate] *)
Definition scene_duration : M World Z :=
  w <- gets id ;;
  match view (scene w) with
  | Scene _ _ duration _ _ => ret duration
  | _ => raise AttributeError
  end.
Definition scene_frame_rate : M World Z :=
  w <- gets id ;;
  match view (scene w) with
  | Scene _ _ _ frame_rate _ => ret frame_rate
  | _ => raise AttributeError
  end.

(** [scene.reset()] *)
Definition scene_reset : M World unit :=
  modify (fun w => mkWorld (reset (scene w)) (the_renderer w) (history w ++ [ev_reset])).

(** [renderer = Renderer()] *)
Definition new_renderer : M World unit :=
  modify (fun w => mkWorld (scene w) Renderer.__init__ (history w)).

(** [def _render(renderer, scene, time)] *)
Definition _render (time : Q) : M World Image :=
  fun w =>
    let s := compute time (scene w) in
    let '(r, rd) := Renderer.render (view s) (the_renderer w) in
    (r, mkWorld s rd (history w ++ [ev_compute time; ev_render r rd])).

(** [def render(scene, time=0)] *)
Definition render (time : Q) : M World Image :=
  scene_reset ;;
  new_renderer ;;
  _render time.

(** The [for] loop of [render_animation] over the generator; the progress
    line it writes to the terminal is left out. *)
Fixpoint frame_loop (g : Generator (Z * Q)) (frames : list Image)
    : M World (list Image) :=
  match g with
  | Stop => ret frames
  | Throw e => raise e
  | Yield (_, time) rest =>
      image <- _render time ;;
      frame_loop rest (frames ++ [image])
  end.

(** [def render_animation(scene, *, inclusive=True)] *)
Definition render_animation (inclusive : bool) : M World (list Image) :=
  scene_reset ;;
  new_renderer ;;
  duration <- scene_duration ;;
  frame_rate <- scene_frame_rate ;;
  frame_loop (iter_frame_time duration frame_rate inclusive) [].

(** The frames of a run as the code makes them, one after the other: each
    step computes the scene at its time, where the step before has left
    it, and renders it with the renderer the step before has left. *)
Fixpoint steps_from (s : SceneObj) (r : Renderer.t) (steps : list Step) : Prop :=
  match steps with
  | [] => True
  | st :: rest =>
      Renderer.render (view (compute (step_time st) s)) r
      = (Ok (step_image st), step_renderer st) /\
      steps_from (compute (step_time st) s) (step_renderer st) rest
  end.

End Driver.

End renderer.

(** ** Sample objects *)

Module Samples.
Import renderer.
Local Open Scope string_scope.

(** A property holding a number, as [define("width", 3)] makes it. *)
Definition width_property : ElementProperty.t :=
  ElementProperty.mk "width" (Number (PyInt 3)) [c_Number] PyNone.

(** A property that allows every [Type], as [define("label", "a", Type)]
    makes it. *)
Definition label_property : ElementProperty.t :=
  ElementProperty.mk "label" (String (PyStr "a")) [c_Type] PyNone.

(** An element with that one property. *)
Definition sized : Element.t :=
  Element.mk {[ "width" := width_property ]} [] None.

(** A store of two new elements. *)
Definition two_new : gmap Element.addr Element.t :=
  {[ 0%nat := Element.__init__; 1%nat := Element.__init__ ]}.

Definition black : Color := rgba 0 0 0 255.
Definition white : Color := rgba 255 255 255 255.

Definition square : Bounds := bounds_at (point 5 5) 20 20.

(** A one second scene at ten frames a second: a group at (10,10) that
    holds a rectangle at (5,5). *)
Definition grouped_scene : Element :=
  Scene (point 100 100) white 1 10
    [Group (point 10 10) [Rectangle square black black 1 []]].

(** A renderer in the middle of a scene. *)
Definition at_work : Renderer.t :=
  Renderer.mk (Some (Image_new (point 100 100) white)) [point 0 0].

(** The children of a group one of whose classes has no handler. *)
Definition with_stranger : list Element :=
  [Rectangle square black black 1 []; Other "Sprite" []].

(** The driver on a scene that [reset] and [compute] leave alone. *)
Definition still_world : World Element :=
  mkWorld Element grouped_scene Renderer.__init__ [].

End Samples.

(** * Properties *)

(** Unfolding of the calls of the little monad. *)
Ltac py_unfold :=
  unfold bind, ret, raise, assert, gets, modify, lift in *.

(** ** The property system *)

Module PropertyFacts.
Import ElementProperty Element.

Lemma issubclass_trans_Type (a b : PyClass) :
  issubclass a b = true -> issubclass b c_Type = true -> issubclass a c_Type = true.
Proof. destruct a, b; vm_compute; congruence. Qed.

Lemma allowed_Type (v : PyValue) (tys : list PyClass) :
  forallb (fun ty => issubclass ty c_Type) tys = true ->
  isinstance_any v tys = true ->
  isinstance v c_Type = true.
Proof.
  unfold isinstance_any. intros Hall Hex.
  apply existsb_exists in Hex as (ty & Hin & Hty).
  rewrite forallb_forall in Hall.
  eapply issubclass_trans_Type; [exact Hty | auto].
Qed.

Lemma well_typed_Type (p : ElementProperty.t) :
  well_typed p -> isinstance (value p) c_Type = true.
Proof. intros [H1 H2]. eapply allowed_Type; eauto. Qed.

(** [box] reaches a fixed point at once: a box is no raw literal. *)
Lemma box_idem (v : PyValue) : box (box v) = box v.
Proof.
  unfold box.
  destruct (isinstance_any v [c_int; c_float]) eqn:E1; [reflexivity |].
  destruct (isinstance v c_str) eqn:E2; [reflexivity |].
  rewrite E1, E2. reflexivity.
Qed.

Lemma property_set_ok (v : PyValue) (p : ElementProperty.t) :
  isinstance_any v (types p) = true ->
  ElementProperty.set v p = (Ok tt, set_value v p).
Proof. intros H. unfold ElementProperty.set. py_unfold. rewrite H. reflexivity. Qed.

Lemma property_set_fail (v : PyValue) (p : ElementProperty.t) :
  isinstance_any v (types p) = false ->
  ElementProperty.set v p = (Raise AssertionError, p).
Proof. intros H. unfold ElementProperty.set. py_unfold. rewrite H. reflexivity. Qed.

Lemma property_set_inv (v : PyValue) (p p' : ElementProperty.t) (r : Result unit) :
  ElementProperty.set v p = (r, p') ->
  (r = Ok tt /\ p' = set_value v p /\ isinstance_any v (types p) = true) \/
  (r = Raise AssertionError /\ p' = p /\ isinstance_any v (types p) = false).
Proof.
  destruct (isinstance_any v (types p)) eqn:E.
  - rewrite property_set_ok by assumption. intros [= <- <-]. left. repeat split.
  - rewrite property_set_fail by assumption. intros [= <- <-]. right. repeat split.
Qed.

(** The constructor, by cases. *)
Lemma init_inv (n : string) (v : PyValue) (tys : list PyClass) (rel : PyValue)
    (r : Result ElementProperty.t) :
  ElementProperty.__init__ n v tys rel = r ->
  (r = Ok (ElementProperty.mk n v tys rel) /\
   forallb (fun ty => issubclass ty c_Type) tys = true /\
   isinstance_any v tys = true) \/
  (r = Raise AssertionError /\
   (forallb (fun ty => issubclass ty c_Type) tys = false \/
    match rel with PyNone => true | _ => isinstance rel c_ElementProperty end = false \/
    isinstance_any v tys = false)).
Proof.
  unfold ElementProperty.__init__.
  destruct (forallb _ tys) eqn:Hall; simpl; [| intros <-; right; auto].
  destruct (match rel with PyNone => true | _ => _ end) eqn:Hrel; simpl;
    [| intros <-; right; auto].
  destruct (isinstance_any v tys) eqn:Hv.
  - rewrite property_set_ok by exact Hv. intros <-. left. auto.
  - rewrite property_set_fail by exact Hv. intros <-. right. auto.
Qed.

(** [define], by cases: it either registers the property built from the
    boxed value, or raises and leaves the element as it was. *)
Lemma define_inv (n : string) (v : PyValue) (ty : TypesArg) (rel : PyValue)
    (e e' : Element.t) (r : Result unit) :
  define n v ty rel e = (r, e') ->
  (r = Ok tt /\
   _properties e !! n = None /\
   isinstance (box v) c_Type = true /\
   forallb (fun c => issubclass c c_Type) (declared_types ty (box v)) = true /\
   isinstance_any (box v) (declared_types ty (box v)) = true /\
   e' = set_properties
          (<[n := ElementProperty.mk n (box v) (declared_types ty (box v)) rel]>
             (_properties e)) e) \/
  (r = Raise AssertionError /\ e' = e).
Proof.
  unfold define. py_unfold.
  destruct (isinstance (box v) c_Type) eqn:HT; [| intros [= <- <-]; right; auto].
  destruct (_properties e !! n) as [p0|] eqn:Hn; simpl.
  - rewrite bool_decide_eq_true_2 by eauto. simpl. intros [= <- <-]. right. auto.
  - rewrite bool_decide_eq_false_2 by (intros [? ?]; congruence). simpl.
    fold (declared_types ty (box v)).
    destruct (ElementProperty.__init__ n (box v) (declared_types ty (box v)) rel)
      as [p|ex] eqn:Hinit.
    + apply init_inv in Hinit as [(Hp & Hall & Hv) | (Hp & _)]; [| discriminate].
      injection Hp as <-. intros [= <- <-]. left. repeat split; auto.
    + apply init_inv in Hinit as [(Hp & _) | (Hp & _)]; [discriminate |].
      injection Hp as ->. intros [= <- <-]. right. auto.
Qed.

(** [Element.set], by cases. *)
Lemma set_inv (n : string) (v : PyValue) (e e' : Element.t) (r : Result unit) :
  Element.set n v e = (r, e') ->
  (exists p, r = Ok tt /\ _properties e !! n = Some p /\
     isinstance_any (box v) (types p) = true /\
     e' = set_properties (<[n := set_value (box v) p]> (_properties e)) e) \/
  (r = Raise AssertionError /\ e' = e).
Proof.
  unfold Element.set, Element.get. py_unfold.
  destruct (_properties e !! n) as [p|] eqn:Hn; simpl.
  - rewrite Hn.
    destruct (ElementProperty.set (box v) p) as [r0 p'] eqn:Hset.
    apply property_set_inv in Hset as [(-> & -> & Hv) | (-> & -> & Hv)];
      intros [= <- <-].
    + left. exists p. auto.
    + right. split; [reflexivity |].
      rewrite insert_id by exact Hn. destruct e; reflexivity.
  - intros [= <- <-]. right. auto.
Qed.

Lemma define_well_typed (n : string) (v : PyValue) (ty : TypesArg) (rel : PyValue)
    (e : Element.t) :
  all_well_typed e -> all_well_typed (snd (define n v ty rel e)).
Proof.
  intros Hwt. destruct (define n v ty rel e) as [r e'] eqn:Hd. simpl.
  apply define_inv in Hd as [(-> & Hn & HT & Hall & Hv & ->) | (-> & ->)]; [| exact Hwt].
  intros m p. simpl. rewrite lookup_insert. case_decide.
  - intros [= <-]. split; assumption.
  - apply Hwt.
Qed.

Lemma set_well_typed (n : string) (v : PyValue) (e : Element.t) :
  all_well_typed e -> all_well_typed (snd (Element.set n v e)).
Proof.
  intros Hwt. destruct (Element.set n v e) as [r e'] eqn:Hs. simpl.
  apply set_inv in Hs as [(p & -> & Hn & Hv & ->) | (-> & ->)]; [| exact Hwt].
  intros m q. simpl. rewrite lookup_insert. case_decide.
  - intros [= <-]. destruct (Hwt _ _ Hn) as [Hall _]. split; assumption.
  - apply Hwt.
Qed.

Lemma calls_well_typed (calls : list PropCall) (e : Element.t) :
  all_well_typed e -> all_well_typed (foldl (fun e c => exec_prop c e) e calls).
Proof.
  revert e. induction calls as [|c calls IH]; intros e Hwt; simpl; [exact Hwt |].
  apply IH. destruct c; simpl.
  - apply define_well_typed, Hwt.
  - apply set_well_typed, Hwt.
Qed.

Lemma init_well_typed : all_well_typed Element.__init__.
Proof. intros n p. unfold Element.__init__. simpl. rewrite lookup_empty. discriminate. Qed.

End PropertyFacts.

Module PropertyClaims.
Import ElementProperty Element PropertyFacts.

(** C3, as the code has it.  The allowed types are tested with
    [isinstance]: a value is refused when it is an instance of none of
    them, where an instance of a subclass counts as an instance; then [set]
    raises and the stored value is what it was.  A value whose class is in
    the set is always taken, and [set] returns exactly when the value is an
    instance of an allowed type.  Consequently a value that [set] or the
    constructor has stored is an instance of an allowed type, and so is
    every stored value of an element after any sequence of [define] and
    [set] calls, failed ones included. *)
Theorem property_set_rejects_disallowed :
  (forall (p : ElementProperty.t) (v : PyValue),
     isinstance_any v (types p) = false ->
     ElementProperty.set v p = (Raise AssertionError, p)) /\
  (forall (p p' : ElementProperty.t) (v : PyValue),
     ElementProperty.set v p = (Ok tt, p') ->
     value p' = v /\ types p' = types p /\
     isinstance_any (value p') (types p') = true) /\
  (forall (n : string) (v : PyValue) (tys : list PyClass) (rel : PyValue)
          (p : ElementProperty.t),
     ElementProperty.__init__ n v tys rel = Ok p ->
     isinstance_any (value p) (types p) = true) /\
  (forall (calls : list PropCall) (n : string) (p : ElementProperty.t),
     _properties (foldl (fun e c => exec_prop c e) Element.__init__ calls) !! n
       = Some p ->
     isinstance_any (value p) (types p) = true) /\
  (forall (p : ElementProperty.t) (v : PyValue),
     type v ∈ types p ->
     ElementProperty.set v p = (Ok tt, set_value v p)) /\
  (forall (p : ElementProperty.t) (v : PyValue),
     raised (fst (ElementProperty.set v p)) = false <->
     exists c, c ∈ types p /\ issubclass (type v) c = true).
Proof.
  split; [| split; [| split; [| split; [| split]]]].
  - intros p v H. apply property_set_fail, H.
  - intros p p' v H.
    apply property_set_inv in H as [(_ & -> & Hv) | (? & _)]; [| discriminate].
    repeat split. exact Hv.
  - intros n v tys rel p H.
    apply init_inv in H as [(Hp & _ & Hv) | (? & _)]; [| discriminate].
    injection Hp as ->. exact Hv.
  - intros calls n p H.
    exact (proj2 (calls_well_typed calls _ init_well_typed n p H)).
  - intros p v Hin. apply property_set_ok.
    apply existsb_exists. exists (type v). split; [apply list_elem_of_In, Hin |].
    unfold isinstance, issubclass.
    rewrite bool_decide_eq_true_2 by reflexivity. reflexivity.
  - intros p v. destruct (isinstance_any v (types p)) eqn:E.
    + rewrite property_set_ok by exact E. simpl. split; [intros _ | reflexivity].
      apply existsb_exists in E as (c & Hin & Hc).
      exists c. split; [apply list_elem_of_In, Hin | exact Hc].
    + rewrite property_set_fail by exact E. simpl. split; [discriminate |].
      intros (c & Hin & Hc). exfalso.
      assert (isinstance_any v (types p) = true); [| congruence].
      apply existsb_exists. exists c. split; [apply list_elem_of_In, Hin | exact Hc].
Qed.

(** C4, as the code has it.  For a name that is not in the property
    dictionary, [has] does not fail: it returns [False]; [get] raises
    [KeyError] and [set] fails its assertion, and none of the three changes
    the element. *)
Theorem absent_name_has_get_set (e : Element.t) (n : string) (v : PyValue) :
  _properties e !! n = None ->
  has n e = (Ok false, e) /\
  get n e = (Raise KeyError, e) /\
  Element.set n v e = (Raise AssertionError, e).
Proof.
  intros Hn. unfold has, get, Element.set. py_unfold. rewrite Hn.
  rewrite bool_decide_eq_false_2 by (intros [? ?]; congruence).
  repeat split.
Qed.

(** C8.  [define] and [set] box a raw literal before anything else: an
    [int] or a [float] becomes a [Number], a [str] a [String], and the call
    goes on exactly as on the boxed value.  What a successful call stores is
    the boxed value, an instance of [Type]; when [define] is given no
    [types], the allowed types are the class of the boxed value alone.
    After any sequence of [define] and [set] calls every stored value is an
    instance of [Type]. *)
Theorem define_set_box_literals :
  (forall (n : Z) (q : Q) (s : string),
     box (PyInt n) = Number (PyInt n) /\
     box (PyFloat q) = Number (PyFloat q) /\
     box (PyStr s) = String (PyStr s)) /\
  (forall (e : Element.t) (n : string) (v : PyValue) (ty : TypesArg) (rel : PyValue),
     define n v ty rel e = define n (box v) ty rel e /\
     Element.set n v e = Element.set n (box v) e) /\
  (forall (e e' : Element.t) (n : string) (v : PyValue) (ty : TypesArg)
          (rel : PyValue),
     define n v ty rel e = (Ok tt, e') ->
     exists p, _properties e' !! n = Some p /\
       value p = box v /\
       isinstance (box v) c_Type = true /\
       isinstance_any (box v) (types p) = true /\
       (ty = NoTypes -> types p = [type (box v)])) /\
  (forall (e e' : Element.t) (n : string) (v : PyValue),
     Element.set n v e = (Ok tt, e') ->
     exists p, _properties e' !! n = Some p /\
       value p = box v /\
       isinstance_any (box v) (types p) = true) /\
  (forall (calls : list PropCall) (n : string) (p : ElementProperty.t),
     _properties (foldl (fun e c => exec_prop c e) Element.__init__ calls) !! n
       = Some p ->
     isinstance (value p) c_Type = true).
Proof.
  split; [| split; [| split; [| split]]].
  - intros n q s. repeat split.
  - intros e n v ty rel. unfold define, Element.set.
    rewrite !box_idem. split; reflexivity.
  - intros e e' n v ty rel H.
    apply define_inv in H as [(_ & Hn & HT & Hall & Hv & ->) | (? & _)];
      [| discriminate].
    eexists. split; [simpl; apply lookup_insert_eq |].
    simpl. repeat split; auto. intros ->. reflexivity.
  - intros e e' n v H.
    apply set_inv in H as [(p & _ & Hn & Hv & ->) | (? & _)]; [| discriminate].
    eexists. split; [simpl; apply lookup_insert_eq |].
    simpl. split; auto.
  - intros calls n p H.
    apply well_typed_Type.
    exact (calls_well_typed calls _ init_well_typed n p H).
Qed.

(** C10.  [define] is atomic: when it raises, the element, and with it the
    property dictionary, is what it was.  It raises when the name is taken
    and when the boxed value is an instance of none of the allowed types;
    when it does not raise, the property it registers under the name is the
    one the constructor has validated. *)
Theorem define_failure_leaves_element (e : Element.t) (n : string) (v : PyValue)
    (ty : TypesArg) (rel : PyValue) :
  (raised (fst (define n v ty rel e)) = true -> snd (define n v ty rel e) = e) /\
  (is_Some (_properties e !! n) -> define n v ty rel e = (Raise AssertionError, e)) /\
  (isinstance_any (box v) (declared_types ty (box v)) = false ->
   define n v ty rel e = (Raise AssertionError, e)) /\
  (raised (fst (define n v ty rel e)) = false ->
   _properties (snd (define n v ty rel e)) !! n
     = Some (ElementProperty.mk n (box v) (declared_types ty (box v)) rel) /\
   forall m, m <> n ->
     _properties (snd (define n v ty rel e)) !! m = _properties e !! m).
Proof.
  destruct (define n v ty rel e) as [r e'] eqn:Hd.
  apply define_inv in Hd as [(-> & Hn & HT & Hall & Hv & ->) | (-> & ->)]; simpl.
  - repeat split.
    + discriminate.
    + intros [p Hp]. congruence.
    + congruence.
    + apply lookup_insert_eq.
    + intros m Hm. apply lookup_insert_ne. congruence.
  - repeat split; discriminate.
Qed.

End PropertyClaims.

(** ** The element tree *)

Module TreeFacts.
Import Element.

(** [add], by cases: it either links the child, or raises and leaves the
    store as it was. *)
Lemma add_inv (p c : addr) (h h' : gmap addr t) (r : Result unit) :
  add p c h = (r, h') ->
  (r = Ok tt /\ is_Some (h !! p) /\
   (exists ce, h !! c = Some ce /\ _parent ce = None) /\
   h' = alter (fun s => set_children (_children s ++ [c]) s) p
          (alter (set_parent (Some p)) c h)) \/
  (h' = h /\
   ((r = Raise AttributeError /\ h !! p = None) \/
    (r = Raise AssertionError /\ is_Some (h !! p) /\ parent_of h c <> None) \/
    (r = Raise AssertionError /\ is_Some (h !! p) /\ h !! c = None))).
Proof.
  unfold add, parent_of. py_unfold. unfold id.
  destruct (h !! p) as [pe|] eqn:Hp; [| intros [= <- <-]; right; auto].
  destruct (h !! c) as [ce|] eqn:Hc.
  - rewrite bool_decide_eq_true_2 by eauto. simpl.
    destruct (_parent ce) as [q|] eqn:Hq.
    + rewrite bool_decide_eq_false_2 by discriminate.
      intros [= <- <-]. right. split; [reflexivity |]. right. left.
      repeat split; eauto.
    + rewrite bool_decide_eq_true_2 by reflexivity.
      intros [= <- <-]. left. repeat split; eauto.
  - rewrite bool_decide_eq_false_2 by (intros [? ?]; congruence). simpl.
    intros [= <- <-]. right. split; [reflexivity |]. right. right.
    repeat split; eauto.
Qed.

(** The store after a successful [add]: one parent reference and one child
    list have changed. *)
Section Linked.
Variables (p c : addr) (h : gmap addr t).
Hypothesis Hp : is_Some (h !! p).
Hypothesis Hc : exists ce, h !! c = Some ce /\ _parent ce = None.

Let h' := alter (fun s => set_children (_children s ++ [c]) s) p
            (alter (set_parent (Some p)) c h).

Lemma linked_parent (x : addr) :
  parent_of h' x = if decide (x = c) then Some p else parent_of h x.
Proof using Hp Hc.
  unfold parent_of, h'. destruct Hc as (ce & Hce & Hpar). destruct Hp as [pe Hpe].
  rewrite !lookup_alter.
  repeat case_decide; subst; try congruence;
    rewrite ?Hce, ?Hpe; simpl; try reflexivity;
    destruct (h !! x); reflexivity.
Qed.

Lemma linked_children (x : addr) :
  children_of h' x =
  if decide (x = p) then children_of h p ++ [c] else children_of h x.
Proof using Hp Hc.
  unfold children_of, h'. destruct Hc as (ce & Hce & Hpar). destruct Hp as [pe Hpe].
  rewrite !lookup_alter.
  repeat case_decide; subst; try congruence;
    rewrite ?Hce, ?Hpe; simpl; try reflexivity;
    destruct (h !! x); reflexivity.
Qed.

End Linked.

(** After a successful [add] the child lists hold what they held, and the
    new child in its parent's list. *)
Lemma add_edges (p c : addr) (h h' : gmap addr t) :
  add p c h = (Ok tt, h') ->
  (forall x, parent_of h' x = if decide (x = c) then Some p else parent_of h x) /\
  (forall x, children_of h' x =
             if decide (x = p) then children_of h p ++ [c] else children_of h x) /\
  (forall x y, y ∈ children_of h' x <-> y ∈ children_of h x \/ (x = p /\ y = c)) /\
  parent_of h c = None.
Proof.
  intros Ha. apply add_inv in Ha as [(_ & Hp & Hc & ->) | (_ & [(? & _) | [(? & _) | (? & _)]])];
    try discriminate.
  assert (Hnone : parent_of h c = None).
  { destruct Hc as (ce & Hce & Hpar). unfold parent_of. rewrite Hce. exact Hpar. }
  repeat split; try assumption.
  - intros x. apply linked_parent; assumption.
  - intros x. apply linked_children; assumption.
  - rewrite linked_children by assumption. case_decide; subst.
    + rewrite elem_of_app, list_elem_of_singleton. tauto.
    + tauto.
  - rewrite linked_children by assumption. case_decide; subst.
    + rewrite elem_of_app, list_elem_of_singleton. tauto.
    + intros [?|[? _]]; [assumption | contradiction].
Qed.

Lemma descendant_trans (h : gmap addr t) (x y z : addr) :
  descendant h x y -> descendant h y z -> descendant h x z.
Proof.
  induction 1 as [p c Hc | p c d Hc _ IH]; intros Hz.
  - eapply descendant_step; eauto.
  - eapply descendant_step; eauto.
Qed.

(** A path of the new store either was there, or goes through the new
    link. *)
Lemma descendant_add (p c : addr) (h h' : gmap addr t) (x y : addr) :
  add p c h = (Ok tt, h') ->
  descendant h' x y ->
  descendant h x y \/
  ((x = p \/ descendant h x p) /\ (y = c \/ descendant h c y)).
Proof.
  intros Ha. destruct (add_edges _ _ _ _ Ha) as (_ & _ & Hedge & _).
  induction 1 as [a b Hb | a b d Hb _ IH].
  - apply Hedge in Hb as [Hb | [-> ->]].
    + left. constructor. exact Hb.
    + right. auto.
  - apply Hedge in Hb as [Hb | [-> ->]].
    + destruct IH as [IH | [[-> | IH1] IH2]].
      * left. eapply descendant_step; eauto.
      * right. split; [right; constructor; exact Hb | exact IH2].
      * right. split; [right; eapply descendant_step; eauto | exact IH2].
    + destruct IH as [IH | [_ IH2]].
      * right. auto.
      * right. auto.
Qed.

Lemma descendant_mono (p c : addr) (h h' : gmap addr t) (x y : addr) :
  add p c h = (Ok tt, h') -> descendant h x y -> descendant h' x y.
Proof.
  intros Ha. destruct (add_edges _ _ _ _ Ha) as (_ & _ & Hedge & _).
  induction 1 as [a b Hb | a b d Hb _ IH].
  - constructor. apply Hedge. auto.
  - eapply descendant_step; [apply Hedge; left; exact Hb | exact IH].
Qed.

Lemma add_acyclic (p c : addr) (h : gmap addr t) :
  acyclic h -> c <> p -> ~ descendant h c p -> acyclic (snd (add p c h)).
Proof.
  intros Hacyc Hne Hnd.
  destruct (add p c h) as [r h'] eqn:Ha. simpl.
  destruct r as [[]|ex].
  - intros a Hcycle.
    destruct (descendant_add _ _ _ _ _ _ Ha Hcycle) as [Hold | [H1 H2]].
    + exact (Hacyc a Hold).
    + apply Hnd. destruct H1 as [-> | H1], H2 as [<- | H2]; try congruence.
      eapply descendant_trans; eauto.
  - apply add_inv in Ha as [(? & _) | (-> & _)]; [discriminate | exact Hacyc].
Qed.

Lemma add_consistent (p c : addr) (h : gmap addr t) :
  consistent h -> consistent (snd (add p c h)).
Proof.
  intros [Hpc Hnd].
  destruct (add p c h) as [r h'] eqn:Ha. simpl.
  destruct r as [[]|ex].
  - destruct (add_edges _ _ _ _ Ha) as (Hpar & Hch & Hedge & Hnone).
    split.
    + intros x y. rewrite Hedge, Hpar. case_decide; subst.
      * rewrite Hpc, Hnone. split; [intros [? | [-> _]]; congruence |].
        intros [= ->]. auto.
      * rewrite Hpc. split; [intros [? | [_ ?]]; congruence | auto].
    + intros x. rewrite Hch. case_decide; subst; [| apply Hnd].
      apply NoDup_app. split; [apply Hnd |]. split; [| apply NoDup_singleton].
      intros y Hy ->%list_elem_of_singleton.
      apply Hpc in Hy. congruence.
  - apply add_inv in Ha as [(? & _) | (-> & _)]; [discriminate | split; assumption].
Qed.

(** The calls on one element change neither its parent nor its children. *)
Lemma on_frame {A} (self : addr) (m : M t A) (h : gmap addr t) :
  (forall e, _parent (snd (m e)) = _parent e /\ _children (snd (m e)) = _children e) ->
  forall x, parent_of (snd (on self m h)) x = parent_of h x /\
            children_of (snd (on self m h)) x = children_of h x.
Proof.
  intros Hm x. unfold on, parent_of, children_of.
  destruct (h !! self) as [e|] eqn:He; [| auto].
  destruct (Hm e) as [H1 H2]. destruct (m e) as [r e']. simpl in *.
  rewrite lookup_insert. case_decide; subst; [| auto].
  rewrite He. simpl. auto.
Qed.

Lemma define_frame n v ty rel (e : t) :
  _parent (snd (define n v ty rel e)) = _parent e /\
  _children (snd (define n v ty rel e)) = _children e.
Proof.
  destruct (define n v ty rel e) as [r e'] eqn:Hd.
  apply PropertyFacts.define_inv in Hd as [(_ & _ & _ & _ & _ & ->) | (_ & ->)]; auto.
Qed.

Lemma set_frame n v (e : t) :
  _parent (snd (set n v e)) = _parent e /\
  _children (snd (set n v e)) = _children e.
Proof.
  destruct (set n v e) as [r e'] eqn:Hd.
  apply PropertyFacts.set_inv in Hd as [(p & _ & _ & _ & ->) | (_ & ->)]; auto.
Qed.

Lemma get_frame n (e : t) : snd (get n e) = e.
Proof. unfold get. py_unfold. destruct (_properties e !! n); reflexivity. Qed.

Lemma has_frame n (e : t) : snd (has n e) = e.
Proof. reflexivity. Qed.

(** Only [add] writes a parent reference, and only over [None]. *)
Lemma exec_parent (call : Call) (h : gmap addr t) (c : addr) :
  parent_of (snd (exec call h)) c = parent_of h c \/
  (exists p, call = CAdd p c /\ fst (exec call h) = false /\
             parent_of h c = None /\ parent_of (snd (exec call h)) c = Some p).
Proof.
  destruct call as [self n v ty rel | self n | self n v | self n | self d]; simpl.
  - left. destruct (on self (define n v ty rel) h) as [r h'] eqn:Ho.
    change h' with (snd (r, h')). rewrite <- Ho.
    apply on_frame. intros e. apply define_frame.
  - left. destruct (on self (get n) h) as [r h'] eqn:Ho.
    change h' with (snd (r, h')). rewrite <- Ho.
    apply on_frame. intros e. rewrite get_frame. auto.
  - left. destruct (on self (set n v) h) as [r h'] eqn:Ho.
    change h' with (snd (r, h')). rewrite <- Ho.
    apply on_frame. intros e. apply set_frame.
  - left. destruct (on self (has n) h) as [r h'] eqn:Ho.
    change h' with (snd (r, h')). rewrite <- Ho.
    apply on_frame. intros e. rewrite has_frame. auto.
  - destruct (add self d h) as [r h'] eqn:Ha. simpl.
    destruct r as [[]|ex].
    + destruct (add_edges _ _ _ _ Ha) as (Hpar & _ & _ & Hnone).
      rewrite Hpar. case_decide; subst; [| left; reflexivity].
      right. exists self. auto.
    + left. apply add_inv in Ha as [(? & _) | (-> & _)]; [discriminate | reflexivity].
Qed.

Lemma exec_keeps_parent (call : Call) (h : gmap addr t) (c p : addr) :
  parent_of h c = Some p -> parent_of (snd (exec call h)) c = Some p.
Proof.
  intros Hp. destruct (exec_parent call h c) as [-> | (q & _ & _ & Hnone & _)];
    [exact Hp | congruence].
Qed.

Lemma run_keeps_parent (calls : list Call) (h : gmap addr t) (c p : addr) :
  parent_of h c = Some p -> parent_of (run calls h) c = Some p.
Proof.
  revert h. induction calls as [|call calls IH]; intros h Hp; [exact Hp |].
  apply IH, exec_keeps_parent, Hp.
Qed.

Lemma add_with_parent (q c : addr) (h : gmap addr t) :
  parent_of h c <> None ->
  raised (fst (add q c h)) = true /\ snd (add q c h) = h /\
  (is_Some (h !! q) -> add q c h = (Raise AssertionError, h)).
Proof.
  intros Hpar. destruct (add q c h) as [r h'] eqn:Ha.
  apply add_inv in Ha
    as [(_ & _ & (ce & Hce & Hnone) & _) | (-> & [(-> & Hq) | [(-> & _) | (-> & _)]])];
    simpl.
  - exfalso. apply Hpar. unfold parent_of. rewrite Hce. exact Hnone.
  - repeat split. intros [? ?]. congruence.
  - auto.
  - auto.
Qed.

End TreeFacts.

Module TreeClaims.
Import Element TreeFacts.

(** C5.  Once [add] has made [c] a child, [c] keeps that parent whatever
    calls follow on whatever elements, and any further [add] of [c], to the
    same or to another element, raises (it fails the assertion on
    [element._parent]) and changes nothing.  A call after which [c] has a
    parent it did not have before is a successful [add] of [c]. *)
Theorem add_child_only_once :
  (forall (h h' : gmap addr t) (p c : addr) (calls : list Call) (q : addr),
     add p c h = (Ok tt, h') ->
     parent_of (run calls h') c = Some p /\
     raised (fst (add q c (run calls h'))) = true /\
     snd (add q c (run calls h')) = run calls h' /\
     (is_Some (run calls h' !! q) ->
      add q c (run calls h') = (Raise AssertionError, run calls h'))) /\
  (forall (call : Call) (h : gmap addr t) (c p : addr),
     parent_of h c = None ->
     parent_of (snd (exec call h)) c = Some p ->
     call = CAdd p c /\ fst (exec call h) = false).
Proof.
  split.
  - intros h h' p c calls q Ha.
    assert (Hp : parent_of (run calls h') c = Some p).
    { apply run_keeps_parent.
      destruct (add_edges _ _ _ _ Ha) as (Hpar & _).
      rewrite Hpar. case_decide; congruence. }
    split; [exact Hp |].
    apply add_with_parent. congruence.
  - intros call h c p Hnone Hsome.
    destruct (exec_parent call h c) as [Heq | (q & -> & Hok & _ & Hq)].
    + congruence.
    + split; [| exact Hok]. congruence.
Qed.

(** C2, as the code has it.  [add] looks at the parent reference of its
    argument and at nothing else: it succeeds exactly when both objects are
    elements and the argument has no parent.  So an element that has a
    parent cannot be added anywhere, its own descendants included; but an
    element without a parent can be added to itself and to any of its
    descendants, and the graph then has a cycle.  The graph stays acyclic
    along every sequence of [add] calls none of which adds an element to
    itself or to one of its descendants; and along every sequence of calls
    the child lists agree with the parent references and list no child
    twice. *)
Theorem add_checks_parent_only :
  (forall (p c : addr) (h : gmap addr t),
     raised (fst (add p c h)) = false <->
     is_Some (h !! p) /\ exists ce, h !! c = Some ce /\ _parent ce = None) /\
  (forall (p c : addr) (h : gmap addr t),
     parent_of h c <> None -> raised (fst (add p c h)) = true) /\
  (forall (e : addr) (h : gmap addr t),
     (exists el, h !! e = Some el /\ _parent el = None) ->
     fst (add e e h) = Ok tt /\ descendant (snd (add e e h)) e e) /\
  (forall (p c : addr) (h : gmap addr t),
     (exists ce, h !! c = Some ce /\ _parent ce = None) ->
     is_Some (h !! p) ->
     descendant h c p ->
     fst (add p c h) = Ok tt /\ descendant (snd (add p c h)) c c) /\
  (forall (adds : list (addr * addr)) (h : gmap addr t),
     acyclic h -> guarded h adds ->
     acyclic (foldl (fun h pc => snd (add pc.1 pc.2 h)) h adds)) /\
  (forall (adds : list (addr * addr)) (h : gmap addr t),
     consistent h ->
     consistent (foldl (fun h pc => snd (add pc.1 pc.2 h)) h adds)).
Proof.
  assert (Hsucc : forall p c h,
            is_Some (h !! p) -> (exists ce, h !! c = Some ce /\ _parent ce = None) ->
            exists h', add p c h = (Ok tt, h')).
  { intros p c h Hp (ce & Hce & Hnone).
    destruct (add p c h) as [r h'] eqn:Ha.
    apply add_inv in Ha
      as [(-> & _) | (_ & [(_ & Hq) | [(_ & _ & Hq) | (_ & _ & Hq)]])].
    - eauto.
    - destruct Hp. congruence.
    - exfalso. apply Hq. unfold parent_of. rewrite Hce. exact Hnone.
    - congruence. }
  split; [| split; [| split; [| split; [| split]]]].
  - intros p c h. split.
    + destruct (add p c h) as [r h'] eqn:Ha.
      apply add_inv in Ha
        as [(-> & Hp & Hc & _) | (_ & [(-> & _) | [(-> & _) | (-> & _)]])];
        simpl; auto; discriminate.
    + intros [Hp Hc]. destruct (Hsucc p c h Hp Hc) as [h' ->]. reflexivity.
  - intros p c h Hpar. apply add_with_parent, Hpar.
  - intros e h Hel.
    destruct (Hsucc e e h) as [h' Ha]; [destruct Hel as (el & -> & _); eauto | exact Hel |].
    rewrite Ha. simpl. split; [reflexivity |].
    constructor. apply (add_edges _ _ _ _ Ha). auto.
  - intros p c h Hc Hp Hdesc.
    destruct (Hsucc p c h Hp Hc) as [h' Ha].
    rewrite Ha. simpl. split; [reflexivity |].
    eapply descendant_trans.
    + eapply descendant_mono; eauto.
    + constructor. apply (add_edges _ _ _ _ Ha). auto.
  - induction adds as [|[p c] adds IH]; intros h Hacyc Hg; simpl; [exact Hacyc |].
    destruct Hg as (Hne & Hnd & Hg).
    apply IH; [| exact Hg]. apply add_acyclic; assumption.
  - induction adds as [|[p c] adds IH]; intros h Hcons; simpl; [exact Hcons |].
    apply IH. apply add_consistent, Hcons.
Qed.

End TreeClaims.

(** ** The renderer *)

Module RenderFacts.
Import renderer renderer.Renderer.

(** Induction on an element with the property at hand for its children. *)
Lemma Element_nested_ind (P : Element -> Prop) :
  (forall e, Forall P (children e) -> P e) -> forall e, P e.
Proof.
  intros H. fix IH 1. intros e. apply H.
  destruct e as [? ? ? ? cs | ? cs | ? ? ? ? cs | ? ? ? ? ? cs | ? ? ? ? ? ? cs
                | ? ? ? ? cs | ? ? ? ? ? ? ? cs | ? cs]; simpl;
    induction cs as [|c cs IHcs]; constructor; auto.
Qed.

(** The handlers, one equation each. *)
Lemma _render_Scene size background duration frame_rate cs :
  _render (Scene size background duration frame_rate cs) =
  (modify (set_image (Some (Image_new size background))) ;;
   _render_children cs ;;
   gets _image).
Proof. reflexivity. Qed.

Lemma _render_Group position cs :
  _render (Group position cs) =
  (translate position (_render_children cs) ;; ret None).
Proof. reflexivity. Qed.

Lemma _render_Rectangle bounds color outline_color outline_width cs :
  _render (Rectangle bounds color outline_color outline_width cs) =
  shape (fun tr => draw_rect (Point_add_Bounds tr bounds) color outline_color
                     outline_width) cs.
Proof. reflexivity. Qed.

Lemma _render_Circle center radius color outline_color outline_width cs :
  _render (Circle center radius color outline_color outline_width cs) =
  shape (fun tr => draw_circle (Point_add tr center) radius color outline_color
                     outline_width) cs.
Proof. reflexivity. Qed.

Lemma _render_Ellipse center radius_x radius_y color outline_color outline_width cs :
  _render (Ellipse center radius_x radius_y color outline_color outline_width cs) =
  shape (fun tr => draw_ellipse (Point_add tr center) radius_x radius_y color
                     outline_color outline_width) cs.
Proof. reflexivity. Qed.

Lemma _render_Line start_point end_point color width cs :
  _render (Line start_point end_point color width cs) =
  shape (fun tr => draw_line (Point_add tr start_point) (Point_add tr end_point)
                     color width) cs.
Proof. reflexivity. Qed.

Lemma _render_Text text font font_size position color anchor alignment cs :
  _render (Text text font font_size position color anchor alignment cs) =
  shape (fun tr => draw_text text (Point_add tr position) color
                     (Font_load font font_size) anchor alignment) cs.
Proof. reflexivity. Qed.

Lemma _render_Other class_name cs :
  _render (Other class_name cs) = raise AttributeError.
Proof. reflexivity. Qed.

Lemma paint_Group tr position cs image :
  paint tr (Group position cs) image = paint_children (Point_add tr position) cs image.
Proof. reflexivity. Qed.

Lemma paint_Scene tr size background duration frame_rate cs image :
  paint tr (Scene size background duration frame_rate cs) image =
  paint_children tr cs (Some (Image_new size background)).
Proof. reflexivity. Qed.

(** [self.translation] and [pop], by cases on the stack. *)
Lemma translation_last (r : t) (tr : Point) :
  last (_translations r) = Some tr -> translation r = (Ok tr, r).
Proof. intros H. unfold translation. py_unfold. rewrite H. reflexivity. Qed.

Lemma translation_empty (r : t) :
  _translations r = [] -> translation r = (Raise IndexError, r).
Proof. intros H. unfold translation. py_unfold. rewrite H. reflexivity. Qed.

Lemma pop_snoc (r : t) (ts : list Point) (p : Point) :
  _translations r = ts ++ [p] -> pop r = (Ok tt, set_translations ts r).
Proof.
  intros H. unfold pop. py_unfold. rewrite H.
  destruct (ts ++ [p]) eqn:E; [destruct ts; discriminate |].
  rewrite <- E, removelast_last. reflexivity.
Qed.

(** A call that raises before it has touched the renderer. *)
Ltac raised_at_once :=
  split; [exists []; symmetry; apply app_nil_r | intros; discriminate].

Lemma last_cases (ts : list Point) :
  ts = [] \/ exists ts' p, ts = ts' ++ [p] /\ last ts = Some p.
Proof.
  destruct (last ts) as [p|] eqn:E.
  - right. apply last_Some in E as [ts' ->]. exists ts', p. auto.
  - left. apply last_None, E.
Qed.

(** [translate], by cases: the stack the body runs on, and what becomes of
    it. *)
Lemma translate_run {A} (offset : Point) (body : M t A) (r : t) (tr : Point) :
  last (_translations r) = Some tr ->
  translate offset body r =
  match body (set_translations (_translations r ++ [Point_add tr offset]) r) with
  | (Ok a, r2) =>
      match pop r2 with
      | (Ok _, r3) => (Ok a, r3)
      | (Raise e, r3) => (Raise e, r3)
      end
  | (Raise e, r2) => (Raise e, r2)
  end.
Proof.
  intros H. unfold translate. unfold bind at 1. rewrite (translation_last _ _ H).
  py_unfold.
  destruct (body _) as [[a|e] r2]; [| reflexivity].
  destruct (pop r2) as [[u|e] r3]; reflexivity.
Qed.

Lemma translate_empty {A} (offset : Point) (body : M t A) (r : t) :
  _translations r = [] -> translate offset body r = (Raise IndexError, r).
Proof.
  intros H. unfold translate. unfold bind at 1. rewrite (translation_empty _ H).
  reflexivity.
Qed.

Lemma children_spec_Forall (cs : list Element) :
  Forall render_spec cs -> children_spec cs.
Proof.
  induction 1 as [|c cs Hc _ IH]; intros r.
  - simpl. py_unfold. split; [reflexivity |]. intros u r' tr [= _ <-] _. reflexivity.
  - destruct (Hc r) as [Hstack Himg].
    change (_render_children (c :: cs)) with (_render c ;; _render_children cs).
    unfold bind. destruct (_render c r) as [[v|ex] r1] eqn:E1; simpl in Hstack.
    + destruct (IH r1) as [Hstack1 Himg1]. split.
      * destruct (_render_children cs r1) as [[u|ex] r2]; simpl in *.
        -- congruence.
        -- destruct Hstack1 as [extra ->]. exists extra. congruence.
      * intros u r' tr Hr Hlast. simpl.
        rewrite (Himg1 u r' tr Hr) by congruence.
        rewrite (Himg v r1 tr eq_refl Hlast). reflexivity.
    + split; [exact Hstack | intros; discriminate].
Qed.

Lemma draw_run (call : Point -> DrawCall) (r : t) :
  draw call r =
  match _image r with
  | None => (Raise AttributeError, r)
  | Some img =>
      match last (_translations r) with
      | Some tr => (Ok tt, set_image (Some (Image_draw (call tr) img)) r)
      | None => (Raise IndexError, r)
      end
  end.
Proof.
  unfold draw, translation. py_unfold.
  destruct (_image r); [| reflexivity].
  destruct (last (_translations r)); reflexivity.
Qed.

Lemma shape_run (call : Point -> DrawCall) (cs : list Element) (r : t) :
  shape call cs r =
  match _image r with
  | None => (Raise AttributeError, r)
  | Some img =>
      match last (_translations r) with
      | Some tr =>
          match _render_children cs (set_image (Some (Image_draw (call tr) img)) r) with
          | (Ok _, r2) => (Ok None, r2)
          | (Raise e, r2) => (Raise e, r2)
          end
      | None => (Raise IndexError, r)
      end
  end.
Proof.
  unfold shape. unfold bind at 1. rewrite draw_run.
  destruct (_image r); [| reflexivity].
  destruct (last (_translations r)); [| reflexivity].
  py_unfold. destruct (_render_children cs _) as [[u|ex] r2]; reflexivity.
Qed.

Lemma group_run (position : Point) (cs : list Element) (r : t) :
  _render (Group position cs) r =
  match translate position (_render_children cs) r with
  | (Ok _, r') => (Ok None, r')
  | (Raise e, r') => (Raise e, r')
  end.
Proof.
  rewrite _render_Group. unfold bind at 1, ret.
  destruct (translate _ _ r) as [[u|ex] r']; reflexivity.
Qed.

Lemma shape_spec (call : Point -> DrawCall) (cs : list Element) :
  children_spec cs ->
  forall r,
    stack_kept r (shape call cs r) /\
    forall v r' tr,
      shape call cs r = (Ok v, r') ->
      last (_translations r) = Some tr ->
      _image r' = paint_children tr cs (Image_draw (call tr) <$> _image r).
Proof.
  intros Hcs r. rewrite shape_run.
  destruct (_image r) as [img|] eqn:Himg; [| raised_at_once].
  destruct (last (_translations r)) as [tr0|] eqn:Hlast; [| raised_at_once].
  set (r1 := set_image _ r).
  destruct (Hcs r1) as [Hstack Hpaint].
  destruct (_render_children cs r1) as [[u|ex] r2] eqn:E; simpl in *.
  - split; [exact Hstack |].
    intros v r' tr [= _ <-] [= <-]. apply (Hpaint u r2 tr0 eq_refl). exact Hlast.
  - split; [exact Hstack | intros; discriminate].
Qed.

(** The renderer refines [paint]: a call that returns has painted what
    [paint] says, at the translation on top of the stack, and has left the
    stack as it found it. *)
Lemma _render_spec (e : Element) : render_spec e.
Proof.
  induction e as [e IH] using Element_nested_ind.
  apply children_spec_Forall in IH.
  destruct e as [size bg d fr cs | pos cs | b c oc ow cs | ce ra c oc ow cs
                | ce rx ry c oc ow cs | sp ep c w cs | tx f fs pos c an al cs | nm cs];
    simpl in IH; intros r.
  - rewrite _render_Scene. py_unfold.
    set (r1 := set_image _ r).
    destruct (IH r1) as [Hstack Hpaint].
    destruct (_render_children cs r1) as [[u|ex] r2] eqn:E; simpl in Hstack.
    + split; [exact Hstack |].
      intros v r' tr [= _ <-] Hlast. rewrite paint_Scene.
      apply (Hpaint u r2 tr eq_refl). exact Hlast.
    + split; [exact Hstack | intros; discriminate].
  - rewrite group_run.
    destruct (last_cases (_translations r)) as [Hnil | (ts & p & Hts & Hlast)].
    + rewrite translate_empty by exact Hnil. raised_at_once.
    + rewrite (translate_run _ _ _ _ Hlast).
      set (r1 := set_translations _ r).
      destruct (IH r1) as [Hstack Hpaint].
      destruct (_render_children cs r1) as [[u|ex] r2] eqn:E; simpl in Hstack.
      * rewrite (pop_snoc r2 (_translations r) (Point_add p pos)) by exact Hstack.
        split; [reflexivity |].
        intros v r' tr [= _ <-] Hlast'. rewrite paint_Group.
        assert (tr = p) as -> by congruence.
        apply (Hpaint u r2 (Point_add p pos) eq_refl).
        simpl. apply last_snoc.
      * split; [| intros; discriminate].
        destruct Hstack as [extra Hextra]. simpl.
        exists ([Point_add p pos] ++ extra). rewrite app_assoc. exact Hextra.
  - rewrite _render_Rectangle. apply (shape_spec _ _ IH).
  - rewrite _render_Circle. apply (shape_spec _ _ IH).
  - rewrite _render_Ellipse. apply (shape_spec _ _ IH).
  - rewrite _render_Line. apply (shape_spec _ _ IH).
  - rewrite _render_Text. apply (shape_spec _ _ IH).
  - rewrite _render_Other. raised_at_once.
Qed.

Lemma _render_children_spec (cs : list Element) : children_spec cs.
Proof. apply children_spec_Forall, Forall_forall. intros e _. apply _render_spec. Qed.

Lemma children_total_Forall (cs : list Element) :
  Forall render_total cs -> children_total cs.
Proof.
  induction 1 as [|c cs Hc _ IH]; intros Hall r Himg Hts.
  - exists r. auto.
  - simpl in Hall. apply andb_prop in Hall as [Hc1 Hcs].
    destruct (Hc Hc1 r (or_introl Himg) Hts) as (v & r1 & E1 & Himg1 & _).
    destruct (_render_spec c r) as [Hstack _]. rewrite E1 in Hstack. simpl in Hstack.
    destruct (IH Hcs r1 Himg1) as (r2 & E2 & Himg2); [congruence |].
    exists r2. split; [| exact Himg2].
    change (_render_children (c :: cs)) with (_render c ;; _render_children cs).
    unfold bind. rewrite E1. exact E2.
Qed.

Lemma shape_total (call : Point -> DrawCall) (cs : list Element) (r : t) :
  children_total cs ->
  forallb renderable cs = true ->
  is_Some (_image r) ->
  _translations r <> [] ->
  exists v r', shape call cs r = (Ok v, r') /\ is_Some (_image r').
Proof.
  intros Hcs Hall [img Himg] Hts. rewrite shape_run, Himg.
  destruct (last_cases (_translations r)) as [? | (ts & p & _ & ->)]; [contradiction |].
  destruct (Hcs Hall (set_image (Some (Image_draw (call p) img)) r))
    as (r2 & -> & Himg2); simpl; eauto.
Qed.

Lemma _render_total (e : Element) : render_total e.
Proof.
  induction e as [e IH] using Element_nested_ind.
  apply children_total_Forall in IH.
  destruct e as [size bg d fr cs | pos cs | b c oc ow cs | ce ra c oc ow cs
                | ce rx ry c oc ow cs | sp ep c w cs | tx f fs pos c an al cs | nm cs];
    simpl in IH; intros Hall r Himg Hts; simpl in Hall;
    try (destruct Himg as [Himg | ?]; [| discriminate]).
  - rewrite _render_Scene. py_unfold.
    destruct (IH Hall (set_image (Some (Image_new size bg)) r))
      as (r2 & -> & Himg2); simpl; eauto.
  - rewrite group_run.
    destruct (last_cases (_translations r)) as [? | (ts & p & _ & Hlast)];
      [contradiction |].
    rewrite (translate_run _ _ _ _ Hlast).
    set (r1 := set_translations _ r).
    destruct (IH Hall r1) as (r2 & E & Himg2);
      [exact Himg | simpl; destruct (_translations r); discriminate |].
    destruct (_render_children_spec cs r1) as [Hstack _].
    rewrite E in *. simpl in Hstack.
    rewrite (pop_snoc r2 (_translations r) (Point_add p pos)) by exact Hstack.
    eexists _, _. split; [reflexivity |]. split; [exact Himg2 | discriminate].
  - rewrite _render_Rectangle.
    match goal with |- context [shape ?call cs r] =>
      destruct (shape_total call cs r IH Hall Himg Hts) as (v & r' & -> & ?)
    end.
    eexists _, _. repeat split; [assumption | discriminate].
  - rewrite _render_Circle.
    match goal with |- context [shape ?call cs r] =>
      destruct (shape_total call cs r IH Hall Himg Hts) as (v & r' & -> & ?)
    end.
    eexists _, _. repeat split; [assumption | discriminate].
  - rewrite _render_Ellipse.
    match goal with |- context [shape ?call cs r] =>
      destruct (shape_total call cs r IH Hall Himg Hts) as (v & r' & -> & ?)
    end.
    eexists _, _. repeat split; [assumption | discriminate].
  - rewrite _render_Line.
    match goal with |- context [shape ?call cs r] =>
      destruct (shape_total call cs r IH Hall Himg Hts) as (v & r' & -> & ?)
    end.
    eexists _, _. repeat split; [assumption | discriminate].
  - rewrite _render_Text.
    match goal with |- context [shape ?call cs r] =>
      destruct (shape_total call cs r IH Hall Himg Hts) as (v & r' & -> & ?)
    end.
    eexists _, _. repeat split; [assumption | discriminate].
  - discriminate.
Qed.

(** [render], by cases. *)
Lemma render_run (e : Element) (r : t) :
  render e r =
  if is_Scene e then
    match _render e r with
    | (Ok (Some img), r') => (Ok img, r')
    | (Ok None, r') => (Raise AssertionError, r')
    | (Raise ex, r') => (Raise ex, r')
    end
  else (Raise AssertionError, r).
Proof.
  unfold render, assert. py_unfold. destruct (is_Scene e); [| reflexivity]. simpl.
  destruct (_render e r) as [[[img|]|ex] r']; reflexivity.
Qed.

Lemma render_stack (e : Element) (r : t) : stack_kept r (render e r).
Proof.
  rewrite render_run. destruct (is_Scene e); [| exists []; symmetry; apply app_nil_r].
  destruct (_render_spec e r) as [Hstack _].
  destruct (_render e r) as [[[img|]|ex] r']; simpl in *; try exact Hstack.
  exists []. rewrite app_nil_r. exact Hstack.
Qed.

Lemma render_paints (e : Element) (r r' : t) (img : Image) (tr : Point) :
  render e r = (Ok img, r') ->
  last (_translations r) = Some tr ->
  is_Scene e = true /\ _image r' = Some img /\
  Some img = paint tr e (_image r) /\
  _translations r' = _translations r.
Proof.
  intros Hr Hlast. pose proof (render_stack e r) as Hstack.
  rewrite Hr in Hstack. simpl in Hstack.
  rewrite render_run in Hr. destruct (is_Scene e) eqn:HS; [| discriminate].
  destruct (_render_spec e r) as [_ Hpaint].
  destruct (_render e r) as [[[img'|]|ex] r1] eqn:E; try discriminate.
  injection Hr as <- <-.
  specialize (Hpaint _ _ _ eq_refl Hlast).
  assert (Himg : _image r1 = Some img').
  { destruct e; try discriminate. rewrite _render_Scene in E. py_unfold.
    destruct (_render_children _ _) as [[u|ex] r2]; [| discriminate].
    injection E as <- <-. reflexivity. }
  repeat split; congruence.
Qed.

Lemma render_total_scene (e : Element) (r : t) :
  is_Scene e = true -> renderable e = true -> _translations r <> [] ->
  exists img r', render e r = (Ok img, r').
Proof.
  intros HS Hall Hts.
  destruct (_render_total e Hall r (or_intror HS) Hts) as (v & r' & E & [img Himg] & Hv).
  rewrite render_run, HS, E. rewrite (Hv HS), Himg. eauto.
Qed.

End RenderFacts.

Module RenderClaims.
Import renderer renderer.Renderer RenderFacts.

Lemma shape_drawn (call : Point -> DrawCall) (cs : list Element) (r : t) (tr : Point) :
  last (_translations r) = Some tr -> shape call cs r = drawn (call tr) cs r.
Proof. intros H. rewrite shape_run. unfold drawn. rewrite H. reflexivity. Qed.

(** C1, as the code has it.  A scene whose child is a group at (10,10)
    holding a rectangle is rendered by one [draw_rect] call whose bounds
    are the rectangle's own bounds moved by (10,10), the translation the
    group has accumulated; for a rectangle at (5,5) that is the origin
    (15,15).  In general a handler that returns has painted what [paint]
    says: each shape draws at the translation on top of the stack composed
    with its own geometry, groups add their positions to it, and the stack
    is left as it was. *)
Theorem group_translation_offsets_shapes :
  (forall size bg d fr b c oc ow,
     render (Scene size bg d fr [Group (point 10 10) [Rectangle b c oc ow []]])
       Renderer.__init__
     = (Ok (mkImage size bg [draw_rect (Point_add_Bounds (point 10 10) b) c oc ow]),
        mk (Some (mkImage size bg
                    [draw_rect (Point_add_Bounds (point 10 10) b) c oc ow]))
           [point 0 0])) /\
  (forall w h,
     Point_add_Bounds (point 10 10) (bounds_at (point 5 5) w h)
     = bounds_at (point 15 15) w h) /\
  (forall (r : t) (tr : Point) (cs : list Element),
     last (_translations r) = Some tr ->
     (forall b c oc ow,
        _render (Rectangle b c oc ow cs) r
        = drawn (draw_rect (Point_add_Bounds tr b) c oc ow) cs r) /\
     (forall ce ra c oc ow,
        _render (Circle ce ra c oc ow cs) r
        = drawn (draw_circle (Point_add tr ce) ra c oc ow) cs r) /\
     (forall ce rx ry c oc ow,
        _render (Ellipse ce rx ry c oc ow cs) r
        = drawn (draw_ellipse (Point_add tr ce) rx ry c oc ow) cs r) /\
     (forall sp ep c w,
        _render (Line sp ep c w cs) r
        = drawn (draw_line (Point_add tr sp) (Point_add tr ep) c w) cs r) /\
     (forall tx f fs pos c an al,
        _render (Text tx f fs pos c an al cs) r
        = drawn (draw_text tx (Point_add tr pos) c (Font_load f fs) an al) cs r)) /\
  (forall (e : Element) (r r' : t) (v : option Image) (tr : Point),
     _render e r = (Ok v, r') ->
     last (_translations r) = Some tr ->
     _image r' = paint tr e (_image r) /\ _translations r' = _translations r) /\
  (forall tr p1 p2 cs image,
     paint tr (Group p1 [Group p2 cs]) image
     = paint_children (Point_add (Point_add tr p1) p2) cs image).
Proof.
  split; [| split; [| split; [| split]]].
  - reflexivity.
  - reflexivity.
  - intros r tr cs Hlast. repeat split; intros.
    + rewrite _render_Rectangle, (shape_drawn _ _ _ _ Hlast). reflexivity.
    + rewrite _render_Circle, (shape_drawn _ _ _ _ Hlast). reflexivity.
    + rewrite _render_Ellipse, (shape_drawn _ _ _ _ Hlast). reflexivity.
    + rewrite _render_Line, (shape_drawn _ _ _ _ Hlast). reflexivity.
    + rewrite _render_Text, (shape_drawn _ _ _ _ Hlast). reflexivity.
  - intros e r r' v tr Hr Hlast. destruct (_render_spec e r) as [Hstack Hpaint].
    rewrite Hr in Hstack. split; [eapply Hpaint; eauto | exact Hstack].
  - reflexivity.
Qed.

(** C9.  [translate] runs its body on the stack with [translation + offset]
    pushed.  When the body returns, the last entry is popped: the stack is
    the one before the call whenever the body has left it as it got it.
    When the body raises, nothing is popped: the renderer stays as the body
    left it, the pushed entry still on the stack.  So a group whose
    children raise leaves its entry behind, and a group that returns leaves
    the stack as it was. *)
Theorem translate_pops_on_return_only {A} (offset : Point) (body : M t A) (r : t)
    (tr : Point) :
  last (_translations r) = Some tr ->
  let r1 := set_translations (_translations r ++ [Point_add tr offset]) r in
  (forall a r2,
     body r1 = (Ok a, r2) ->
     _translations r2 = _translations r1 ->
     translate offset body r = (Ok a, set_translations (_translations r) r2)) /\
  (forall e r2,
     body r1 = (Raise e, r2) ->
     translate offset body r = (Raise e, r2)) /\
  (forall e r2 extra,
     body r1 = (Raise e, r2) ->
     _translations r2 = _translations r1 ++ extra ->
     _translations (snd (translate offset body r))
     = _translations r ++ [Point_add tr offset] ++ extra) /\
  (forall cs e r',
     _render (Group offset cs) r = (Raise e, r') ->
     exists extra, _translations r' = _translations r ++ [Point_add tr offset] ++ extra) /\
  (forall cs v r',
     _render (Group offset cs) r = (Ok v, r') ->
     _translations r' = _translations r).
Proof.
  intros Hlast r1. repeat split.
  - intros a r2 Hbody Hstack. rewrite (translate_run _ _ _ _ Hlast).
    fold r1. rewrite Hbody.
    rewrite (pop_snoc r2 (_translations r) (Point_add tr offset)) by exact Hstack.
    reflexivity.
  - intros e r2 Hbody. rewrite (translate_run _ _ _ _ Hlast).
    fold r1. rewrite Hbody. reflexivity.
  - intros e r2 extra Hbody Hstack. rewrite (translate_run _ _ _ _ Hlast).
    fold r1. rewrite Hbody. simpl. rewrite Hstack. simpl. rewrite <- app_assoc.
    reflexivity.
  - intros cs e r'. rewrite group_run, (translate_run _ _ _ _ Hlast). fold r1.
    destruct (_render_children_spec cs r1) as [Hstack _].
    destruct (_render_children cs r1) as [[u|ex] r2]; simpl in Hstack.
    + rewrite (pop_snoc r2 (_translations r) (Point_add tr offset)) by exact Hstack.
      discriminate.
    + intros [= _ <-]. destruct Hstack as [extra ->]. exists extra.
      rewrite <- app_assoc. reflexivity.
  - intros cs v r' Hr. destruct (_render_spec (Group offset cs) r) as [Hstack _].
    rewrite Hr in Hstack. exact Hstack.
Qed.

End RenderClaims.

(** ** The animation driver *)

Module DriverFacts.
Import renderer RenderFacts.

Lemma truediv_nonzero (a b : Z) : b <> 0 -> truediv a b = Ok (quotient a b).
Proof. intros H. unfold truediv. destruct (Z.eqb_spec b 0); congruence. Qed.

Lemma frame_times_nonzero (frames : list Z) (frame_rate : Z) :
  frame_rate <> 0 ->
  frame_times frames frame_rate
  = yields (map (fun i => (i, quotient i frame_rate)) frames).
Proof.
  intros H. induction frames as [|i frames IH]; simpl; [reflexivity |].
  rewrite truediv_nonzero by exact H. rewrite IH. reflexivity.
Qed.

Lemma frame_times_zero (frames : list Z) :
  frame_times frames 0
  = match frames with [] => Stop | _ :: _ => Throw ZeroDivisionError end.
Proof. destruct frames; reflexivity. Qed.

(** A generator of frame times that does not raise has yielded every
    frame with its time. *)
Lemma frame_times_yields (frames : list Z) (frame_rate : Z) (pairs : list (Z * Q)) :
  frame_times frames frame_rate = yields pairs ->
  pairs = map (fun i => (i, quotient i frame_rate)) frames.
Proof.
  revert pairs. induction frames as [|i frames IH]; intros [|p pairs]; simpl;
    try discriminate; try reflexivity.
  - destruct (truediv i frame_rate); discriminate.
  - unfold truediv. destruct (frame_rate =? 0); [discriminate |].
    intros [= <- H]. f_equal. apply IH, H.
Qed.

Lemma range_nil_iff (n : Z) : range n = [] <-> n <= 0.
Proof.
  unfold range. split.
  - intros H. apply (f_equal length) in H. rewrite length_seqZ in H. simpl in H. lia.
  - apply seqZ_nil.
Qed.

Section Loop.
Variable SceneObj : Type.
Variable reset : SceneObj -> SceneObj.
Variable compute : Q -> SceneObj -> SceneObj.
Variable view : SceneObj -> Element.

Abbreviation World := (World SceneObj).
Abbreviation frame_loop := (frame_loop SceneObj compute view).
Abbreviation _render := (_render SceneObj compute view).

Lemma _render_run (time : Q) (w : World) :
  _render time w =
  (fst (Renderer.render (view (compute time (scene _ w))) (the_renderer _ w)),
   mkWorld _ (compute time (scene _ w))
     (snd (Renderer.render (view (compute time (scene _ w))) (the_renderer _ w)))
     (history _ w ++
        [ev_compute time;
         ev_render (fst (Renderer.render (view (compute time (scene _ w)))
                           (the_renderer _ w)))
                   (snd (Renderer.render (view (compute time (scene _ w)))
                           (the_renderer _ w)))])).
Proof.
  unfold renderer._render. destruct (Renderer.render _ _) as [r rd]. reflexivity.
Qed.


(** The same loop, with what each step has done to the scene and to the
    renderer. *)
Lemma frame_loop_steps (g : Generator (Z * Q)) :
  forall (frames res : list Image) (w w' : World),
    frame_loop g frames w = (Ok res, w') ->
    exists (pairs : list (Z * Q)) (steps : list Step),
      g = yields pairs /\
      map step_time steps = map snd pairs /\
      res = frames ++ map step_image steps /\
      history _ w' = history _ w ++ flat_map step_events steps /\
      Forall (fun st => Renderer._translations (step_renderer st)
                        = Renderer._translations (the_renderer _ w)) steps /\
      Renderer._translations (the_renderer _ w')
      = Renderer._translations (the_renderer _ w) /\
      steps_from SceneObj compute view (scene _ w) (the_renderer _ w) steps /\
      scene _ w' = foldl (fun s st => compute (step_time st) s) (scene _ w) steps /\
      the_renderer _ w' = foldl (fun _ st => step_renderer st) (the_renderer _ w) steps.
Proof.
  induction g as [| [frame time] rest IH | e]; intros frames res w w' Hloop.
  - injection Hloop as <- <-. exists [], []. simpl.
    rewrite !app_nil_r. repeat split. constructor.
  - simpl in Hloop. unfold bind in Hloop. rewrite _render_run in Hloop.
    pose proof (render_stack (view (compute time (scene _ w))) (the_renderer _ w))
      as Hstack.
    destruct (Renderer.render _ _) as [[img|ex] rd] eqn:Hrender; simpl in *;
      [| discriminate].
    apply IH in Hloop
      as (pairs & steps & -> & Ht & -> & Hh & Hall & Hts & Hsteps & Hscene & Hrd).
    simpl in *.
    exists ((frame, time) :: pairs), (mkStep time img rd :: steps). simpl.
    split; [reflexivity |]. split; [f_equal; exact Ht |].
    split; [rewrite <- app_assoc; reflexivity |].
    split; [rewrite Hh, <- app_assoc; reflexivity |].
    split.
    { constructor; [exact Hstack |].
      eapply Forall_impl; [exact Hall |]. simpl. intros st ->. exact Hstack. }
    split; [congruence |].
    split; [split; [exact Hrender | exact Hsteps] |].
    split; assumption.
  - discriminate.
Qed.

(** The loop returns when the generator does not raise and the scene stays
    a scene all of whose classes have handlers. *)
Lemma frame_loop_total (I : SceneObj -> Prop) :
  (forall t s, I s -> I (compute t s)) ->
  (forall s, I s -> is_Scene (view s) = true /\ renderable (view s) = true) ->
  forall (pairs : list (Z * Q)) (frames : list Image) (w : World),
    I (scene _ w) ->
    Renderer._translations (the_renderer _ w) <> [] ->
    exists res w', frame_loop (yields pairs) frames w = (Ok res, w').
Proof.
  intros Hstep Hview.
  induction pairs as [|[frame time] pairs IH]; intros frames w HI Hts; simpl.
  - eauto.
  - unfold bind. rewrite _render_run.
    pose proof (render_stack (view (compute time (scene _ w))) (the_renderer _ w))
      as Hstack.
    destruct (Hview _ (Hstep time _ HI)) as [HS Hall].
    destruct (render_total_scene _ (the_renderer _ w) HS Hall Hts) as (img & rd & E).
    rewrite E in *. simpl in *.
    apply IH; simpl; [apply Hstep, HI | congruence].
Qed.

(** [render_animation], up to its loop. *)
Lemma render_animation_run (inclusive : bool) (w0 : World) :
  render_animation SceneObj reset compute view inclusive w0 =
  match view (reset (scene _ w0)) with
  | Scene _ _ duration frame_rate _ =>
      frame_loop (iter_frame_time duration frame_rate inclusive) []
        (mkWorld _ (reset (scene _ w0)) Renderer.__init__ (history _ w0 ++ [ev_reset]))
  | _ =>
      (Raise AttributeError,
       mkWorld _ (reset (scene _ w0)) Renderer.__init__ (history _ w0 ++ [ev_reset]))
  end.
Proof.
  unfold render_animation, scene_reset, new_renderer, scene_duration, scene_frame_rate.
  py_unfold. unfold id. simpl.
  destruct (view (reset (scene _ w0))) eqn:E; simpl; rewrite ?E; reflexivity.
Qed.

End Loop.

End DriverFacts.

Module DriverClaims.
Import renderer RenderFacts DriverFacts.

(** C6, as the code has it.  The frame count is [duration * frame_rate],
    plus one when [inclusive]: 20 and 21 for a duration of 2 at a rate of
    10.  For a frame rate other than zero the enumeration yields exactly
    the pairs [(i, i / frame_rate)] for [i] from 0 up to, and excluding,
    the frame count, in increasing order.  For a frame rate of zero it
    yields nothing: it ends at once when the frame count is not positive,
    and raises [ZeroDivisionError] at its first frame otherwise. *)
Theorem frame_count_and_enumeration :
  (calc_frame_count 2 10 false = 20 /\ calc_frame_count 2 10 true = 21) /\
  forall (duration frame_rate : Z) (inclusive : bool),
    calc_frame_count duration frame_rate inclusive
    = duration * frame_rate + (if inclusive then 1 else 0) /\
    (forall (k : nat) (i : Z),
       range (calc_frame_count duration frame_rate inclusive) !! k = Some i <->
       i = Z.of_nat k /\ i < calc_frame_count duration frame_rate inclusive) /\
    (frame_rate <> 0 ->
     iter_frame_time duration frame_rate inclusive
     = yields (map (fun i => (i, quotient i frame_rate))
                 (range (calc_frame_count duration frame_rate inclusive)))) /\
    (frame_rate = 0 ->
     iter_frame_time duration frame_rate inclusive
     = if 0 <? calc_frame_count duration frame_rate inclusive
       then Throw ZeroDivisionError else Stop).
Proof.
  split; [split; reflexivity |].
  intros duration frame_rate inclusive. repeat split.
  - unfold calc_frame_count. destruct inclusive; lia.
  - apply lookup_seqZ in H. lia.
  - apply lookup_seqZ in H. lia.
  - intros [-> Hlt]. apply lookup_seqZ. lia.
  - intros H. unfold iter_frame_time. apply frame_times_nonzero, H.
  - intros ->. unfold iter_frame_time. rewrite frame_times_zero.
    destruct (Z.ltb_spec 0 (calc_frame_count duration 0 inclusive)) as [Hpos | Hneg].
    + destruct (range _) eqn:E; [| reflexivity].
      apply range_nil_iff in E. lia.
    + apply range_nil_iff in Hneg. rewrite Hneg. reflexivity.
Qed.

Section Animation.
Variable SceneObj : Type.
Variable reset : SceneObj -> SceneObj.
Variable compute : Q -> SceneObj -> SceneObj.
Variable view : SceneObj -> Element.

(** C7.  A run of [render_animation] that returns has called [reset] once,
    before the loop, and then, for each pair of the enumeration in order,
    [compute] at the pair's time followed by [render] on the one renderer,
    collecting the image of each: every step starts from the scene and the
    renderer the step before has left, its image is what [Renderer.render]
    returns for the scene so computed, and the scene and the renderer at
    the end are those of the last step.  The list returned has one image
    per frame, [frame_count] of them, and after every frame the renderer's
    translation stack is the initial one, the zero offset alone.  The run
    does return when the frame rate is not zero and the scene stays a scene
    whose classes all have handlers. *)
Theorem render_animation_collects_frames (w0 : World SceneObj) (inclusive : bool) :
  (forall (frames : list Image) (w' : World SceneObj),
     render_animation SceneObj reset compute view inclusive w0 = (Ok frames, w') ->
     exists size bg duration frame_rate cs (steps : list Step),
       view (reset (scene _ w0)) = Scene size bg duration frame_rate cs /\
       length frames = Z.to_nat (calc_frame_count duration frame_rate inclusive) /\
       (0 <= calc_frame_count duration frame_rate inclusive ->
        Z.of_nat (length frames) = calc_frame_count duration frame_rate inclusive) /\
       frames = map step_image steps /\
       map step_time steps
       = map (fun i => quotient i frame_rate)
           (range (calc_frame_count duration frame_rate inclusive)) /\
       history _ w' = history _ w0 ++ ev_reset :: flat_map step_events steps /\
       Forall (fun st => Renderer._translations (step_renderer st) = [point 0 0])
         steps /\
       Renderer._translations (the_renderer _ w') = [point 0 0] /\
       steps_from SceneObj compute view (reset (scene _ w0)) Renderer.__init__ steps /\
       scene _ w'
       = foldl (fun s st => compute (step_time st) s) (reset (scene _ w0)) steps /\
       the_renderer _ w'
       = foldl (fun _ st => step_renderer st) Renderer.__init__ steps) /\
  (forall (I : SceneObj -> Prop) size bg duration frame_rate cs,
     view (reset (scene _ w0)) = Scene size bg duration frame_rate cs ->
     frame_rate <> 0 ->
     I (reset (scene _ w0)) ->
     (forall t s, I s -> I (compute t s)) ->
     (forall s, I s -> is_Scene (view s) = true /\ renderable (view s) = true) ->
     exists frames w',
       render_animation SceneObj reset compute view inclusive w0 = (Ok frames, w')).
Proof.
  split.
  - intros frames w'. rewrite render_animation_run.
    destruct (view (reset (scene _ w0))) as [size bg d fr cs | | | | | | |] eqn:Hview;
      try discriminate.
    intros Hloop.
    apply frame_loop_steps in Hloop
      as (pairs & steps & Hgen & Ht & -> & Hh & Hall & Hts & Hsteps & Hscene & Hrd).
    simpl in *.
    apply frame_times_yields in Hgen. subst pairs.
    rewrite map_map in Ht. simpl in Ht.
    assert (Hlen : length (map step_image steps)
                   = Z.to_nat (calc_frame_count d fr inclusive)).
    { rewrite length_map, <- (length_map step_time), Ht, length_map.
      apply length_seqZ. }
    exists size, bg, d, fr, cs, steps.
    split; [reflexivity |]. split; [exact Hlen |].
    split; [intros Hpos; rewrite Hlen; lia |].
    split; [reflexivity |]. split; [exact Ht |].
    split; [rewrite Hh, <- app_assoc; reflexivity |].
    split; [exact Hall |]. split; [exact Hts |].
    split; [exact Hsteps |]. split; assumption.
  - intros I size bg d fr cs Hview Hfr HI Hstep Hok.
    rewrite render_animation_run, Hview. unfold iter_frame_time.
    rewrite frame_times_nonzero by exact Hfr.
    eapply frame_loop_total; eauto; simpl; discriminate.
Qed.

End Animation.

End DriverClaims.

(** * The claims at sample inputs *)

Module PropertyWitnesses.
Import ElementProperty Element PropertyFacts PropertyClaims Samples.
Local Open Scope string_scope.

Lemma property_set_rejects_disallowed_witness :
  ElementProperty.set (String (PyStr "wide")) width_property
  = (Raise AssertionError, width_property) /\
  (value (set_value (Number (PyInt 4)) width_property) = Number (PyInt 4) /\
   types (set_value (Number (PyInt 4)) width_property) = types width_property /\
   isinstance_any (value (set_value (Number (PyInt 4)) width_property))
     (types (set_value (Number (PyInt 4)) width_property)) = true) /\
  isinstance_any (value width_property) (types width_property) = true /\
  isinstance_any (value (set_value (Number (PyFloat (1 # 2))) width_property))
    (types (set_value (Number (PyFloat (1 # 2))) width_property)) = true /\
  ElementProperty.set (Number (PyInt 4)) width_property
  = (Ok tt, set_value (Number (PyInt 4)) width_property) /\
  raised (fst (ElementProperty.set (Number (PyInt 3)) label_property)) = false.
Proof.
  destruct property_set_rejects_disallowed as (H1 & H2 & H3 & H4 & H5 & H6).
  split; [apply H1; reflexivity |].
  split; [apply (H2 width_property); reflexivity |].
  split; [apply (H3 "width" (Number (PyInt 3)) [c_Number] PyNone); reflexivity |].
  split.
  { apply (H4 [PDefine "width" (PyInt 3) NoTypes PyNone;
               PSet "width" (PyStr "wide");
               PSet "width" (PyFloat (1 # 2))] "width").
    vm_compute. reflexivity. }
  split.
  - apply H5. apply list_elem_of_singleton. reflexivity.
  - apply H6. exists c_Type. split; [apply list_elem_of_singleton |]; reflexivity.
Defined.

(** C3 as stated fails: a property that allows [Type] takes a [Number].
    The class [Number] is not a member of the allowed set, yet [set]
    returns, and the value then stored has a class that is no member. *)
Lemma set_accepts_subclass_instance :
  define "label" (PyStr "a") (OneType c_Type) PyNone Element.__init__
  = (Ok tt, Element.mk {[ "label" := label_property ]} [] None) /\
  (type (Number (PyInt 3)) ∉ types label_property) /\
  ElementProperty.set (Number (PyInt 3)) label_property
  = (Ok tt, set_value (Number (PyInt 3)) label_property) /\
  (type (value (set_value (Number (PyInt 3)) label_property))
     ∉ types (set_value (Number (PyInt 3)) label_property)) /\
  ~ (forall (p : ElementProperty.t) (v : PyValue),
       type v ∉ types p -> raised (fst (ElementProperty.set v p)) = true).
Proof.
  assert (Hnot : c_Number ∉ [c_Type]).
  { intros H. apply list_elem_of_singleton in H. discriminate. }
  split; [vm_compute; reflexivity |].
  split; [exact Hnot |]. split; [reflexivity |]. split; [exact Hnot |].
  intros H. specialize (H label_property (Number (PyInt 3)) Hnot). discriminate.
Qed.

Lemma absent_name_has_get_set_witness :
  has "height" sized = (Ok false, sized) /\
  get "height" sized = (Raise KeyError, sized) /\
  Element.set "height" (PyInt 4) sized = (Raise AssertionError, sized).
Proof. apply absent_name_has_get_set. vm_compute. reflexivity. Defined.

(** C4 as stated fails: on a new element [has] answers [False] for a name
    that is not there, and does not raise. *)
Lemma has_absent_name_returns_false :
  _properties Element.__init__ !! "width" = None /\
  has "width" Element.__init__ = (Ok false, Element.__init__) /\
  raised (fst (has "width" Element.__init__)) = false.
Proof. vm_compute. repeat split. Qed.

Lemma define_set_box_literals_witness :
  (exists p, _properties (snd (define "width" (PyInt 3) NoTypes PyNone Element.__init__))
               !! "width" = Some p /\
     value p = box (PyInt 3) /\
     isinstance (box (PyInt 3)) c_Type = true /\
     isinstance_any (box (PyInt 3)) (types p) = true /\
     (NoTypes = NoTypes -> types p = [type (box (PyInt 3))])) /\
  (exists p, _properties (snd (Element.set "width" (PyFloat (1 # 2)) sized))
               !! "width" = Some p /\
     value p = box (PyFloat (1 # 2)) /\
     isinstance_any (box (PyFloat (1 # 2))) (types p) = true) /\
  isinstance (value width_property) c_Type = true.
Proof.
  destruct define_set_box_literals as (_ & _ & H3 & H4 & H5).
  split; [apply (H3 Element.__init__ _ "width" (PyInt 3) NoTypes PyNone);
          vm_compute; reflexivity |].
  split; [apply (H4 sized _ "width" (PyFloat (1 # 2))); vm_compute; reflexivity |].
  apply (H5 [PDefine "width" (PyInt 3) NoTypes PyNone] "width").
  vm_compute. reflexivity.
Defined.

Lemma define_failure_leaves_element_witness :
  snd (define "width" (PyInt 4) NoTypes PyNone sized) = sized /\
  define "width" (PyInt 4) NoTypes PyNone sized = (Raise AssertionError, sized) /\
  define "height" (PyStr "tall") (OneType c_Number) PyNone sized
  = (Raise AssertionError, sized) /\
  _properties (snd (define "height" (PyInt 4) NoTypes PyNone sized)) !! "height"
  = Some (ElementProperty.mk "height" (Number (PyInt 4)) [c_Number] PyNone).
Proof.
  destruct (define_failure_leaves_element sized "width" (PyInt 4) NoTypes PyNone)
    as (Hsame & Htaken & _ & _).
  destruct (define_failure_leaves_element sized "height" (PyStr "tall")
              (OneType c_Number) PyNone) as (_ & _ & Htype & _).
  destruct (define_failure_leaves_element sized "height" (PyInt 4) NoTypes PyNone)
    as (_ & _ & _ & Hnew).
  split; [apply Hsame; vm_compute; reflexivity |].
  split; [apply Htaken; vm_compute; eauto |].
  split; [apply Htype; vm_compute; reflexivity |].
  apply Hnew. vm_compute. reflexivity.
Defined.

End PropertyWitnesses.

Module TreeWitnesses.
Import Element TreeFacts TreeClaims Samples.
Local Open Scope string_scope.
Local Open Scope nat_scope.

(** A store of new elements has no links at all. *)
Lemma two_new_lookup (a : addr) (e : t) :
  two_new !! a = Some e -> e = Element.__init__.
Proof.
  unfold two_new. intros [[_ <-] | [_ [_ <-]%lookup_singleton_Some]]%lookup_insert_Some;
    reflexivity.
Qed.

Lemma two_new_children (p : addr) : children_of two_new p = [].
Proof.
  unfold children_of. destruct (two_new !! p) as [e|] eqn:E; [| reflexivity].
  apply two_new_lookup in E as ->. reflexivity.
Qed.

Lemma two_new_parent (c : addr) : parent_of two_new c = None.
Proof.
  unfold parent_of. destruct (two_new !! c) as [e|] eqn:E; [| reflexivity].
  apply two_new_lookup in E as ->. reflexivity.
Qed.

Lemma two_new_no_descendant (a b : addr) : ~ descendant two_new a b.
Proof.
  intros H. destruct H as [p c Hc | p c d Hc _];
    rewrite two_new_children in Hc; inversion Hc.
Qed.

Lemma two_new_consistent : consistent two_new.
Proof.
  split.
  - intros p c. rewrite two_new_children, two_new_parent. split; [| discriminate].
    intros H. inversion H.
  - intros p. rewrite two_new_children. constructor.
Qed.

Lemma add_child_only_once_witness :
  (parent_of (run [CAdd 1 0; CSet 1 "width" (PyInt 3)] (snd (add 0 1 two_new))) 1
   = Some 0%nat /\
   raised (fst (add 1 1 (run [CAdd 1 0; CSet 1 "width" (PyInt 3)]
                           (snd (add 0 1 two_new))))) = true /\
   snd (add 1 1 (run [CAdd 1 0; CSet 1 "width" (PyInt 3)] (snd (add 0 1 two_new))))
   = run [CAdd 1 0; CSet 1 "width" (PyInt 3)] (snd (add 0 1 two_new)) /\
   (is_Some (run [CAdd 1 0; CSet 1 "width" (PyInt 3)] (snd (add 0 1 two_new)) !! 1%nat) ->
    add 1 1 (run [CAdd 1 0; CSet 1 "width" (PyInt 3)] (snd (add 0 1 two_new)))
    = (Raise AssertionError,
       run [CAdd 1 0; CSet 1 "width" (PyInt 3)] (snd (add 0 1 two_new))))) /\
  (CAdd 0 1 = CAdd 0 1 /\ fst (exec (CAdd 0 1) two_new) = false).
Proof.
  destruct add_child_only_once as [Honce Honly].
  split.
  - apply (Honce two_new). vm_compute. reflexivity.
  - apply (Honly (CAdd 0 1) two_new 1%nat 0%nat); vm_compute; reflexivity.
Defined.

(** C2 as stated fails: a new element can be added to itself; the call
    returns, and the element is then its own parent and its own child. *)
Lemma add_to_itself_succeeds :
  add 0 0 two_new
  = (Ok tt, {[ 0%nat := Element.mk ∅ [0%nat] (Some 0%nat); 1%nat := Element.__init__ ]}) /\
  raised (fst (add 0 0 two_new)) = false /\
  descendant (snd (add 0 0 two_new)) 0 0.
Proof.
  assert (E : add 0 0 two_new
              = (Ok tt, {[ 0%nat := Element.mk ∅ [0%nat] (Some 0%nat);
                           1%nat := Element.__init__ ]})).
  { unfold add, two_new. py_unfold. unfold id.
    rewrite !lookup_insert_eq. simpl.
    rewrite !alter_insert_eq. reflexivity. }
  rewrite E. repeat split.
  constructor. simpl. unfold children_of. rewrite lookup_insert_eq. simpl.
  apply list_elem_of_singleton. reflexivity.
Qed.

Lemma add_checks_parent_only_witness :
  (raised (fst (add 0 1 two_new)) = false <->
   is_Some (two_new !! 0%nat) /\
   exists ce, two_new !! 1%nat = Some ce /\ _parent ce = None) /\
  raised (fst (add 1 1 (snd (add 0 1 two_new)))) = true /\
  (fst (add 0 0 two_new) = Ok tt /\ descendant (snd (add 0 0 two_new)) 0 0) /\
  (fst (add 1 0 (snd (add 0 1 two_new))) = Ok tt /\
   descendant (snd (add 1 0 (snd (add 0 1 two_new)))) 0 0) /\
  acyclic (foldl (fun h pc => snd (add pc.1 pc.2 h)) two_new [(0%nat, 1%nat)]) /\
  consistent (foldl (fun h pc => snd (add pc.1 pc.2 h)) two_new
                [(0%nat, 1%nat); (1%nat, 0%nat)]).
Proof.
  destruct add_checks_parent_only as (H1 & H2 & H3 & H4 & H5 & H6).
  split; [apply H1 |].
  split; [apply H2; vm_compute; discriminate |].
  split; [apply H3; exists Element.__init__; split; reflexivity |].
  split.
  { apply H4.
    - eexists. split; [vm_compute; reflexivity | reflexivity].
    - vm_compute. eauto.
    - constructor. vm_compute. apply list_elem_of_singleton. reflexivity. }
  split.
  - apply H5.
    + intros a. apply two_new_no_descendant.
    + simpl. split; [discriminate |]. split; [apply two_new_no_descendant | exact I].
  - apply H6. exact two_new_consistent.
Defined.

End TreeWitnesses.

Module RenderWitnesses.
Import renderer renderer.Renderer RenderFacts RenderClaims Samples.
Local Open Scope string_scope.

(** C1 as stated fails: the one [draw_rect] call of the sample scene has
    the rectangle's bounds moved by (10,10), so that its origin is (15,15);
    no call has them moved by (15,15). *)
Lemma group_offset_is_the_group_position :
  exists img r',
    render grouped_scene Renderer.__init__ = (Ok img, r') /\
    image_calls img = [draw_rect (bounds_at (point 15 15) 20 20) black black 1] /\
    image_calls img = [draw_rect (Point_add_Bounds (point 10 10) square) black black 1] /\
    forall fill outline width,
      draw_rect (Point_add_Bounds (point 15 15) square) fill outline width
        ∉ image_calls img.
Proof.
  eexists _, _. split; [vm_compute; reflexivity |].
  split; [reflexivity |]. split; [reflexivity |].
  intros fill outline width Hin. simpl in Hin.
  apply list_elem_of_singleton in Hin. discriminate.
Qed.

Lemma group_translation_offsets_shapes_witness :
  _render (Rectangle square black black 1 []) at_work
  = drawn (draw_rect (Point_add_Bounds (point 0 0) square) black black 1) [] at_work /\
  (_image (snd (_render grouped_scene Renderer.__init__))
   = paint (point 0 0) grouped_scene (_image Renderer.__init__) /\
   _translations (snd (_render grouped_scene Renderer.__init__))
   = _translations Renderer.__init__).
Proof.
  destruct group_translation_offsets_shapes as (_ & _ & Hshape & Hpaint & _).
  split.
  - apply (Hshape at_work (point 0 0) []). reflexivity.
  - apply (Hpaint grouped_scene Renderer.__init__ _
             (Some (mkImage (point 100 100) white
                      [draw_rect (bounds_at (point 15 15) 20 20) black black 1]))
             (point 0 0)); vm_compute; reflexivity.
Defined.

Lemma translate_pops_on_return_only_witness :
  (translate (point 10 10) (_render_children [Rectangle square black black 1 []]) at_work
   = (Ok tt,
      set_translations (_translations at_work)
        (snd (_render_children [Rectangle square black black 1 []]
                (set_translations [point 0 0; point 10 10] at_work)))) /\
   _translations
     (snd (translate (point 10 10) (_render_children [Rectangle square black black 1 []])
             at_work))
   = [point 0 0]) /\
  (translate (point 10 10) (_render_children with_stranger) at_work
   = (Raise AttributeError,
      snd (_render_children with_stranger
             (set_translations [point 0 0; point 10 10] at_work))) /\
   _translations (snd (translate (point 10 10) (_render_children with_stranger) at_work))
   = [point 0 0; point 10 10]).
Proof.
  split.
  - destruct (translate_pops_on_return_only (point 10 10)
                (_render_children [Rectangle square black black 1 []]) at_work
                (point 0 0) eq_refl) as (Hok & _).
    rewrite (Hok tt _ eq_refl eq_refl). split; reflexivity.
  - destruct (translate_pops_on_return_only (point 10 10)
                (_render_children with_stranger) at_work
                (point 0 0) eq_refl) as (_ & Hraise & Hstack & _).
    split.
    + apply Hraise. reflexivity.
    + apply (Hstack AttributeError _ [] eq_refl). reflexivity.
Defined.

End RenderWitnesses.

Module DriverWitnesses.
Import renderer RenderFacts DriverFacts DriverClaims Samples.

(** C6 as stated fails: at a frame rate of zero the inclusive frame count
    is one, and the enumeration raises before it has yielded the one pair
    the claim expects. *)
Lemma zero_frame_rate_raises :
  calc_frame_count 1 0 true = 1 /\
  iter_frame_time 1 0 true = Throw ZeroDivisionError /\
  iter_frame_time 1 0 true
  <> yields (map (fun i => (i, quotient i 0)) (range (calc_frame_count 1 0 true))).
Proof. repeat split. discriminate. Qed.

(** The enumeration of the spec's example: one second at four frames a
    second, inclusive. *)
Lemma frame_count_and_enumeration_witness :
  iter_frame_time 1 4 true
  = yields [(0, 0 # 1); (1, 1 # 4); (2, 1 # 2); (3, 3 # 4); (4, 1 # 1)] /\
  iter_frame_time 1 0 false = Stop.
Proof.
  destruct frame_count_and_enumeration as [_ H].
  destruct (H 1 4 true) as (_ & _ & Hnonzero & _).
  destruct (H 1 0 false) as (_ & _ & _ & Hzero).
  split.
  - rewrite Hnonzero by discriminate. reflexivity.
  - rewrite Hzero by reflexivity. reflexivity.
Defined.

(** One second at ten frames a second, inclusive: eleven images, each the
    rendering of the scene. *)
Lemma render_animation_collects_frames_witness :
  exists frames w',
    render_animation Element id (fun _ s => s) id true still_world = (Ok frames, w') /\
    length frames = 11%nat /\
    Forall (fun e => match e with
                     | ev_render _ rd => Renderer._translations rd = [point 0 0]
                     | _ => True
                     end) (history _ w') /\
    Renderer._translations (the_renderer _ w') = [point 0 0] /\
    (exists steps,
       frames = map step_image steps /\
       steps_from Element (fun _ s => s) id grouped_scene Renderer.__init__ steps) /\
    Forall (fun img =>
              img = mkImage (point 100 100) white
                      [draw_rect (bounds_at (point 15 15) 20 20) black black 1])
      frames.
Proof.
  destruct (render_animation_collects_frames Element id (fun _ s => s) id
              still_world true) as [Hreturns Htotal].
  destruct (Htotal (fun s => s = grouped_scene) (point 100 100) white 1 10
              [Group (point 10 10) [Rectangle square black black 1 []]])
    as (frames & w' & Hrun).
  - reflexivity.
  - discriminate.
  - reflexivity.
  - intros _ s Hs. exact Hs.
  - intros s ->. split; reflexivity.
  - exists frames, w'. split; [exact Hrun |].
    destruct (Hreturns frames w' Hrun)
      as (size & bg & d & fr & cs & steps & Hview & Hlen & _ & Hfr & _ & Hh & Hall
          & Hts & Hsteps & _).
    injection Hview as <- <- <- <- <-.
    split; [exact Hlen |]. split; [| split; [exact Hts |]].
    + rewrite Hh. simpl. constructor; [exact I |].
      clear -Hall. induction Hall as [|st steps Hst _ IH]; simpl.
      * constructor.
      * constructor; [exact I |]. constructor; [exact Hst | exact IH].
    + split; [exists steps; split; [exact Hfr | exact Hsteps] |].
      vm_compute in Hrun. injection Hrun as <- _. repeat constructor.
Defined.

End DriverWitnesses.

(** * Further properties of the code *)

(** ** Properties and elements *)

Module PropertyExtras.
Import ElementProperty Element PropertyFacts.

Lemma get_present (n : string) (p : ElementProperty.t) (e : Element.t) :
  _properties e !! n = Some p -> get n e = (Ok p, e).
Proof. intros H. unfold get. py_unfold. rewrite H. reflexivity. Qed.

Lemma get_absent (n : string) (e : Element.t) :
  _properties e !! n = None -> get n e = (Raise KeyError, e).
Proof. intros H. unfold get. py_unfold. rewrite H. reflexivity. Qed.

Lemma has_lookup (n : string) (e : Element.t) :
  has n e = (Ok (bool_decide (is_Some (_properties e !! n))), e).
Proof. reflexivity. Qed.

(** X1.  What [define] has registered, [get] returns and [has] reports: the
    property carries the name, the boxed value, the allowed types and the
    relative it was defined with; the name was free before; every other
    name reads as it did, and the element's children and parent are
    untouched. *)
Theorem define_then_get (e e' : Element.t) (n : string) (v : PyValue)
    (ty : TypesArg) (rel : PyValue) :
  define n v ty rel e = (Ok tt, e') ->
  get n e' = (Ok (ElementProperty.mk n (box v) (declared_types ty (box v)) rel), e') /\
  has n e' = (Ok true, e') /\
  has n e = (Ok false, e) /\
  (forall m, m <> n ->
     fst (get m e') = fst (get m e) /\ fst (has m e') = fst (has m e)) /\
  _children e' = _children e /\ _parent e' = _parent e.
Proof.
  intros H.
  apply define_inv in H as [(_ & Hn & _ & _ & _ & ->) | (? & _)]; [| discriminate].
  split; [apply get_present; simpl; apply lookup_insert_eq |].
  split; [rewrite has_lookup; simpl; rewrite lookup_insert_eq;
          rewrite bool_decide_eq_true_2 by eauto; reflexivity |].
  split; [rewrite has_lookup, Hn;
          rewrite bool_decide_eq_false_2 by (intros [? ?]; discriminate);
          reflexivity |].
  split; [| split; reflexivity].
  intros m Hm. rewrite !has_lookup. unfold get. py_unfold. simpl.
  rewrite lookup_insert_ne by congruence.
  split; [destruct (_properties e !! m) |]; reflexivity.
Qed.

(** X2.  A successful [set] changes the value of the one property and
    nothing else: [get] then returns the property with the boxed value and
    with the name, the allowed types and the relative it had; every other
    name reads as it did, and children and parent are untouched. *)
Theorem set_then_get (e e' : Element.t) (n : string) (v : PyValue) :
  Element.set n v e = (Ok tt, e') ->
  exists p p',
    get n e = (Ok p, e) /\ get n e' = (Ok p', e') /\
    value p' = box v /\ name p' = name p /\ types p' = types p /\
    relative p' = relative p /\
    (forall m, m <> n -> fst (get m e') = fst (get m e)) /\
    _children e' = _children e /\ _parent e' = _parent e.
Proof.
  intros H.
  apply set_inv in H as [(p & _ & Hn & _ & ->) | (? & _)]; [| discriminate].
  exists p, (set_value (box v) p).
  split; [apply get_present, Hn |].
  split; [apply get_present; simpl; apply lookup_insert_eq |].
  repeat split.
  intros m Hm. unfold get. py_unfold. simpl.
  rewrite lookup_insert_ne by congruence.
  destruct (_properties e !! m); reflexivity.
Qed.

(** One call keeps every property there is, with its name, types and
    relative. *)
Lemma exec_prop_keeps (c : PropCall) (e : Element.t) (n : string)
    (p : ElementProperty.t) :
  _properties e !! n = Some p ->
  exists p', _properties (exec_prop c e) !! n = Some p' /\
    name p' = name p /\ types p' = types p /\ relative p' = relative p.
Proof.
  intros Hn. destruct c as [m v ty rel | m v]; simpl.
  - destruct (define m v ty rel e) as [r e'] eqn:Hd. simpl.
    apply define_inv in Hd as [(_ & Hm & _ & _ & _ & ->) | (_ & ->)]; [| eauto].
    exists p. simpl. rewrite lookup_insert_ne by congruence. auto.
  - destruct (Element.set m v e) as [r e'] eqn:Hs. simpl.
    apply set_inv in Hs as [(q & _ & Hm & _ & ->) | (_ & ->)]; [| eauto].
    simpl. destruct (decide (m = n)) as [-> | Hne].
    + rewrite lookup_insert_eq. exists (set_value (box v) q).
      assert (q = p) as -> by congruence. auto.
    + rewrite lookup_insert_ne by exact Hne. eauto.
Qed.

(** X3.  A property is for good: whatever [define] and [set] calls follow,
    failed ones included, the name stays defined with the same allowed
    types and the same relative (only its value can change), and a further
    [define] of the name raises and changes nothing. *)
Theorem property_is_permanent (calls : list PropCall) (e : Element.t) (n : string)
    (p : ElementProperty.t) :
  _properties e !! n = Some p ->
  (exists p', _properties (foldl (fun e c => exec_prop c e) e calls) !! n = Some p' /\
     name p' = name p /\ types p' = types p /\ relative p' = relative p) /\
  (forall v ty rel,
     define n v ty rel (foldl (fun e c => exec_prop c e) e calls)
     = (Raise AssertionError, foldl (fun e c => exec_prop c e) e calls)).
Proof.
  intros Hn.
  assert (Hkeep : exists p',
            _properties (foldl (fun e c => exec_prop c e) e calls) !! n = Some p' /\
            name p' = name p /\ types p' = types p /\ relative p' = relative p).
  { revert e p Hn. induction calls as [|c calls IH]; intros e p Hn; simpl; [eauto |].
    destruct (exec_prop_keeps c e n p Hn) as (p1 & H1 & Hname & Hty & Hrel).
    destruct (IH _ _ H1) as (p2 & H2 & Hname2 & Hty2 & Hrel2).
    exists p2. repeat split; congruence. }
  split; [exact Hkeep |].
  intros v ty rel. destruct Hkeep as (p' & Hp' & _).
  destruct (define n v ty rel _) as [r e'] eqn:Hd.
  apply define_inv in Hd as [(_ & Hnone & _) | (-> & ->)]; [congruence | reflexivity].
Qed.

(** X4.  In an element built by [define] and [set] calls, every property is
    filed under its own name. *)
Theorem property_filed_under_its_name (calls : list PropCall) (n : string)
    (p : ElementProperty.t) :
  _properties (foldl (fun e c => exec_prop c e) Element.__init__ calls) !! n = Some p ->
  name p = n.
Proof.
  assert (Hinv : forall calls e,
            (forall n p, _properties e !! n = Some p -> name p = n) ->
            forall n p,
              _properties (foldl (fun e c => exec_prop c e) e calls) !! n = Some p ->
              name p = n).
  { clear. induction calls as [|c calls IH]; intros e He; simpl; [exact He |].
    apply IH. intros n p. destruct c as [m v ty rel | m v]; simpl.
    - destruct (define m v ty rel e) as [r e'] eqn:Hd. simpl.
      apply define_inv in Hd as [(_ & _ & _ & _ & _ & ->) | (_ & ->)]; [| apply He].
      simpl. rewrite lookup_insert. case_decide; [| apply He].
      intros [= <-]. simpl. congruence.
    - destruct (Element.set m v e) as [r e'] eqn:Hs. simpl.
      apply set_inv in Hs as [(q & _ & Hm & _ & ->) | (_ & ->)]; [| apply He].
      simpl. rewrite lookup_insert. case_decide; [| apply He].
      intros [= <-]. simpl. subst. apply He, Hm. }
  apply Hinv. intros m q. unfold Element.__init__. simpl.
  rewrite lookup_empty. discriminate.
Qed.

Lemma set_present_ok (n : string) (v : PyValue) (p : ElementProperty.t)
    (e : Element.t) :
  _properties e !! n = Some p ->
  isinstance_any (box v) (types p) = true ->
  Element.set n v e
  = (Ok tt, set_properties (<[n := set_value (box v) p]> (_properties e)) e).
Proof.
  intros Hn Hv. destruct (Element.set n v e) as [r e'] eqn:Hs.
  unfold Element.set, Element.get in Hs. py_unfold. rewrite Hn in Hs. simpl in Hs.
  rewrite Hn, (property_set_ok _ _ Hv) in Hs. symmetry. exact Hs.
Qed.

(** X5.  [set] is idempotent: the same call again has the same outcome and
    leaves the element as the first call left it. *)
Theorem set_twice (e : Element.t) (n : string) (v : PyValue) :
  Element.set n v (snd (Element.set n v e)) = Element.set n v e.
Proof.
  destruct (Element.set n v e) as [r e'] eqn:Hs. simpl.
  pose proof Hs as Hs'.
  apply set_inv in Hs' as [(p & -> & Hn & Hv & ->) | (-> & ->)]; [| exact Hs].
  rewrite (set_present_ok n v (set_value (box v) p)).
  - simpl. rewrite insert_insert_eq. reflexivity.
  - simpl. apply lookup_insert_eq.
  - exact Hv.
Qed.

Lemma issubclass_refl (c : PyClass) : issubclass c c = true.
Proof. unfold issubclass. rewrite bool_decide_eq_true_2 by reflexivity. reflexivity. Qed.

(** X19.  When [define] succeeds: exactly when the name is free, the boxed
    value is an instance of [Type], every allowed type is a subclass of
    [Type], the relative is [None] or a property, and the boxed value is an
    instance of an allowed type.  Without a [types] argument the last two
    conditions on types hold by themselves. *)
Theorem define_succeeds_iff (e : Element.t) (n : string) (v : PyValue)
    (ty : TypesArg) (rel : PyValue) :
  (raised (fst (define n v ty rel e)) = false <->
   _properties e !! n = None /\
   isinstance (box v) c_Type = true /\
   forallb (fun c => issubclass c c_Type) (declared_types ty (box v)) = true /\
   match rel with PyNone => true | _ => isinstance rel c_ElementProperty end = true /\
   isinstance_any (box v) (declared_types ty (box v)) = true) /\
  (isinstance (box v) c_Type = true ->
   forallb (fun c => issubclass c c_Type) (declared_types NoTypes (box v)) = true /\
   isinstance_any (box v) (declared_types NoTypes (box v)) = true).
Proof.
  split.
  - unfold define. py_unfold. unfold ElementProperty.__init__.
    destruct (isinstance (box v) c_Type) eqn:HT; simpl;
      [| split; [discriminate | intros (_ & ? & _); discriminate]].
    destruct (_properties e !! n) as [p0|] eqn:Hn; simpl;
      [split; [discriminate | intros (? & _); discriminate] |].
    destruct (forallb _ (declared_types ty (box v))) eqn:Hall; simpl;
      [| split; [discriminate | intros (_ & _ & ? & _); discriminate]].
    destruct (match rel with PyNone => true | _ => _ end) eqn:Hrel; simpl;
      [| split; [discriminate | intros (_ & _ & _ & ? & _); discriminate]].
    destruct (isinstance_any (box v) (declared_types ty (box v))) eqn:Hv.
    + rewrite property_set_ok by exact Hv. simpl. split; [auto | reflexivity].
    + rewrite property_set_fail by exact Hv. simpl.
      split; [discriminate | intros (_ & _ & _ & _ & ?); discriminate].
  - intros HT. simpl. unfold isinstance in *. rewrite HT, issubclass_refl. auto.
Qed.

End PropertyExtras.

Module TreeExtras.
Import Element PropertyFacts TreeFacts.

Lemma on_lookup {A} (self : addr) (m : M t A) (h : gmap addr t) (x : addr) :
  snd (on self m h) !! x =
  match h !! self with
  | Some e => if decide (self = x) then Some (snd (m e)) else h !! x
  | None => h !! x
  end.
Proof.
  unfold on. destruct (h !! self) as [e|] eqn:He; [| reflexivity].
  destruct (m e) as [r e']. simpl. apply lookup_insert.
Qed.

Lemma on_same {A} (self : addr) (m : M t A) (h : gmap addr t) :
  (forall e, h !! self = Some e -> snd (m e) = e) -> snd (on self m h) = h.
Proof.
  intros Hm. apply map_eq. intros x. rewrite on_lookup.
  destruct (h !! self) as [e|] eqn:He; [| reflexivity].
  case_decide; [| reflexivity]. subst. rewrite (Hm e eq_refl). symmetry. exact He.
Qed.

Lemma on_raised {A} (self : addr) (m : M t A) (h : gmap addr t) :
  raised (fst (on self m h)) = true ->
  forall e, h !! self = Some e -> raised (fst (m e)) = true.
Proof.
  unfold on. intros H e He. rewrite He in H. destruct (m e) as [r e']. exact H.
Qed.

Lemma define_raised_same n v ty rel (e : t) :
  raised (fst (define n v ty rel e)) = true -> snd (define n v ty rel e) = e.
Proof.
  destruct (define n v ty rel e) as [r e'] eqn:Hd.
  apply define_inv in Hd as [(-> & _) | (_ & ->)]; simpl; [discriminate | reflexivity].
Qed.

Lemma set_raised_same n v (e : t) :
  raised (fst (Element.set n v e)) = true -> snd (Element.set n v e) = e.
Proof.
  destruct (Element.set n v e) as [r e'] eqn:Hs.
  apply set_inv in Hs as [(p & -> & _) | (_ & ->)]; simpl; [discriminate | reflexivity].
Qed.

Lemma exec_fst_on {A} (self : addr) (m : M t A) (h : gmap addr t) :
  (let '(r, h') := on self m h in (raised r, h'))
  = (raised (fst (on self m h)), snd (on self m h)).
Proof. destruct (on self m h). reflexivity. Qed.

(** X6.  Every call is atomic: a call that raises, whichever it is and
    whatever the reason, leaves the whole store as it was; [get] and [has]
    leave it as it was in any case. *)
Theorem failed_call_changes_nothing (call : Call) (h : gmap addr t) :
  (fst (exec call h) = true -> snd (exec call h) = h) /\
  (forall self n, call = CGet self n \/ call = CHas self n -> snd (exec call h) = h).
Proof.
  split.
  - destruct call as [self n v ty rel | self n | self n v | self n | self d]; simpl;
      rewrite ?exec_fst_on; simpl.
    + intros Hr. apply on_same. intros e He.
      apply define_raised_same, (on_raised _ _ _ Hr e He).
    + intros _. apply on_same. intros e _. apply get_frame.
    + intros Hr. apply on_same. intros e He.
      apply set_raised_same, (on_raised _ _ _ Hr e He).
    + intros _. apply on_same. intros e _. apply has_frame.
    + destruct (add self d h) as [r h'] eqn:Ha. simpl. intros Hr.
      apply add_inv in Ha as [(-> & _) | (-> & _)]; [discriminate | reflexivity].
  - intros self n [-> | ->]; simpl; rewrite exec_fst_on; simpl; apply on_same;
      intros e _; [apply get_frame | apply has_frame].
Qed.

Lemma alter_keeps_properties (f : t -> t) (i x : addr) (h : gmap addr t) :
  (forall e, _properties (f e) = _properties e) ->
  _properties <$> alter f i h !! x = _properties <$> h !! x.
Proof.
  intros Hf. rewrite lookup_alter. case_decide; [| reflexivity].
  subst. destruct (h !! x); simpl; [rewrite Hf |]; reflexivity.
Qed.

(** X7.  The two layers of an element do not interfere.  A [define],
    [get], [set] or [has] on one element changes no parent reference and no
    child list, and leaves every other element as it is; an [add] changes no
    property dictionary.  No call creates or removes an element. *)
Theorem calls_keep_to_their_layer (call : Call) (h : gmap addr t) (x : addr) :
  (is_Some (snd (exec call h) !! x) <-> is_Some (h !! x)) /\
  match call with
  | CAdd _ _ => _properties <$> snd (exec call h) !! x = _properties <$> h !! x
  | CDefine self _ _ _ _ | CGet self _ | CSet self _ _ | CHas self _ =>
      parent_of (snd (exec call h)) x = parent_of h x /\
      children_of (snd (exec call h)) x = children_of h x /\
      (x <> self -> snd (exec call h) !! x = h !! x)
  end.
Proof.
  assert (Hon : forall A self (m : M t A),
            (forall e, _parent (snd (m e)) = _parent e /\
                       _children (snd (m e)) = _children e) ->
            (is_Some (snd (on self m h) !! x) <-> is_Some (h !! x)) /\
            parent_of (snd (on self m h)) x = parent_of h x /\
            children_of (snd (on self m h)) x = children_of h x /\
            (x <> self -> snd (on self m h) !! x = h !! x)).
  { intros A self m Hm. destruct (on_frame self m h Hm x) as [Hp Hc].
    repeat split; try assumption.
    - rewrite on_lookup. destruct (h !! self) eqn:He; [| auto].
      case_decide; subst; [rewrite He; eauto | auto].
    - rewrite on_lookup. destruct (h !! self) eqn:He; [| auto].
      case_decide; subst; [rewrite He; eauto | auto].
    - intros Hx. rewrite on_lookup. destruct (h !! self); [| reflexivity].
      case_decide; congruence. }
  destruct call as [self n v ty rel | self n | self n v | self n | self d]; simpl;
    rewrite ?exec_fst_on; simpl.
  - apply Hon. intros e. apply define_frame.
  - apply Hon. intros e. rewrite get_frame. auto.
  - apply Hon. intros e. apply set_frame.
  - apply Hon. intros e. rewrite has_frame. auto.
  - destruct (add self d h) as [r h'] eqn:Ha. simpl.
    apply add_inv in Ha as [(_ & _ & _ & ->) | (-> & _)]; [| split; reflexivity].
    split.
    + rewrite !lookup_alter_is_Some. reflexivity.
    + rewrite !alter_keeps_properties by (intros e; reflexivity). reflexivity.
Qed.

Lemma parentless_add (p c : addr) (h : gmap addr t) :
  is_Some (h !! p) -> parentless h c ->
  exists h', add p c h = (Ok tt, h').
Proof.
  intros Hp [[ce Hce] Hnone].
  destruct (add p c h) as [r h'] eqn:Ha.
  apply add_inv in Ha
    as [(-> & _) | (_ & [(_ & Hq) | [(_ & _ & Hq) | (_ & _ & Hq)]])].
  - eauto.
  - destruct Hp. congruence.
  - contradiction.
  - congruence.
Qed.

(** X8.  Children are listed in the order they were added: adding distinct
    parentless elements to [p], one after the other, appends them to [p]'s
    child list in that order, makes [p] the parent of each, and leaves the
    child lists of all other elements as they were. *)
Theorem children_in_order_added (cs : list addr) (p : addr) (h : gmap addr t) :
  is_Some (h !! p) ->
  NoDup cs ->
  (forall c, c ∈ cs -> parentless h c) ->
  children_of (foldl (fun h c => snd (add p c h)) h cs) p = children_of h p ++ cs /\
  (forall c, c ∈ cs ->
     parent_of (foldl (fun h c => snd (add p c h)) h cs) c = Some p) /\
  (forall x, x <> p ->
     children_of (foldl (fun h c => snd (add p c h)) h cs) x = children_of h x).
Proof.
  revert h. induction cs as [|c cs IH]; intros h Hp Hnd Hall; simpl.
  - rewrite app_nil_r. repeat split. intros c Hc. inversion Hc.
  - apply NoDup_cons in Hnd as [Hc Hnd].
    destruct (parentless_add p c h Hp) as [h' Ha]; [apply Hall; left |].
    rewrite Ha. simpl.
    destruct (add_edges _ _ _ _ Ha) as (Hpar & Hch & _ & _).
    assert (Hp' : is_Some (h' !! p)).
    { apply add_inv in Ha as [(_ & _ & _ & ->) | (_ & [(? & _) | [(? & _) | (? & _)]])];
        try discriminate.
      rewrite !lookup_alter_is_Some. exact Hp. }
    assert (Hall' : forall d, d ∈ cs -> parentless h' d).
    { intros d Hd. destruct (Hall d) as [Hd1 Hd2]; [right; exact Hd |]. split.
      - apply add_inv in Ha
          as [(_ & _ & _ & ->) | (_ & [(? & _) | [(? & _) | (? & _)]])];
          try discriminate.
        rewrite !lookup_alter_is_Some. exact Hd1.
      - rewrite Hpar. case_decide; [subst; contradiction | exact Hd2]. }
    destruct (IH h' Hp' Hnd Hall') as (IH1 & IH2 & IH3).
    split; [| split].
    + rewrite IH1, Hch. rewrite decide_True by reflexivity.
      rewrite <- app_assoc. reflexivity.
    + intros d Hd. apply elem_of_cons in Hd as [-> | Hd]; [| apply IH2, Hd].
      assert (Hkeep : forall l h0, parent_of h0 c = Some p ->
                parent_of (foldl (fun h c => snd (add p c h)) h0 l) c = Some p).
      { clear. induction l as [|d l IHl]; intros h0 H0; simpl; [exact H0 |].
        apply IHl. apply (exec_keeps_parent (CAdd p d) h0 c p) in H0.
        simpl in H0. destruct (add p d h0). exact H0. }
      apply Hkeep. rewrite Hpar. rewrite decide_True by reflexivity. reflexivity.
    + intros x Hx. rewrite (IH3 x Hx), Hch. rewrite decide_False by exact Hx.
      reflexivity.
Qed.

End TreeExtras.

(** ** The renderer *)

Module RenderExtras.
Import renderer renderer.Renderer RenderFacts.

(** A renderer is its image and its stack. *)
Lemma renderer_eq (r r' : t) :
  _image r = _image r' -> _translations r = _translations r' -> r = r'.
Proof. destruct r, r'. simpl. intros -> ->. reflexivity. Qed.

(** Children that are all rendered have handlers, all of them. *)
Lemma children_returned (cs : list Element) :
  Forall (fun e => forall r r' v, _render e r = (Ok v, r') ->
                   renderable e = true /\ (is_Scene e = false -> v = None)) cs ->
  forall r u r', _render_children cs r = (Ok u, r') -> forallb renderable cs = true.
Proof.
  induction 1 as [|c cs Hc _ IH]; intros r u r' Hr; [reflexivity |].
  change (_render_children (c :: cs)) with (_render c ;; _render_children cs) in Hr.
  unfold bind in Hr. destruct (_render c r) as [[v|ex] r1] eqn:E1; [| discriminate].
  simpl. rewrite (proj1 (Hc _ _ _ E1)). simpl. eapply IH, Hr.
Qed.

Lemma shape_returned (call : Point -> DrawCall) (cs : list Element) (r r' : t)
    (v : option Image) :
  shape call cs r = (Ok v, r') ->
  v = None /\ exists u r1, _render_children cs r1 = (Ok u, r').
Proof.
  rewrite shape_run. destruct (_image r); [| discriminate].
  destruct (last (_translations r)); [| discriminate].
  destruct (_render_children cs _) as [[u|ex] r2] eqn:E; [| discriminate].
  intros [= <- <-]. eauto.
Qed.

(** A handler that returns has found a handler for every class below it;
    only the scene handler returns an image. *)
Lemma _render_returned (e : Element) (r r' : t) (v : option Image) :
  _render e r = (Ok v, r') ->
  renderable e = true /\ (is_Scene e = false -> v = None).
Proof.
  revert r r' v. induction e as [e IH] using Element_nested_ind.
  pose proof (children_returned _ IH) as Hcs. clear IH.
  destruct e as [size bg d fr cs | pos cs | b c oc ow cs | ce ra c oc ow cs
                | ce rx ry c oc ow cs | sp ep c w cs | tx f fs pos c an al cs | nm cs];
    simpl in Hcs; intros r r' v Hr.
  - rewrite _render_Scene in Hr. py_unfold.
    destruct (_render_children cs _) as [[u|ex] r2] eqn:E; [| discriminate].
    split; [eapply Hcs, E | discriminate].
  - rewrite group_run in Hr.
    destruct (last_cases (_translations r)) as [Hnil | (ts & p & _ & Hlast)].
    + rewrite translate_empty in Hr by exact Hnil. discriminate.
    + rewrite (translate_run _ _ _ _ Hlast) in Hr.
      destruct (_render_children cs _) as [[u|ex] r2] eqn:E; [| discriminate].
      destruct (pop r2) as [[u'|ex] r3]; [| discriminate].
      injection Hr as <- <-. split; [eapply Hcs, E | reflexivity].
  - rewrite _render_Rectangle in Hr.
    apply shape_returned in Hr as (-> & u & r1 & E). split; [eapply Hcs, E | reflexivity].
  - rewrite _render_Circle in Hr.
    apply shape_returned in Hr as (-> & u & r1 & E). split; [eapply Hcs, E | reflexivity].
  - rewrite _render_Ellipse in Hr.
    apply shape_returned in Hr as (-> & u & r1 & E). split; [eapply Hcs, E | reflexivity].
  - rewrite _render_Line in Hr.
    apply shape_returned in Hr as (-> & u & r1 & E). split; [eapply Hcs, E | reflexivity].
  - rewrite _render_Text in Hr.
    apply shape_returned in Hr as (-> & u & r1 & E). split; [eapply Hcs, E | reflexivity].
  - discriminate.
Qed.

(** On a stack that is not empty the children raise what a child raises. *)
Lemma children_raised (cs : list Element) :
  Forall (fun e => forall r r' ex, _translations r <> [] ->
                   _render e r = (Raise ex, r') -> ex = AttributeError) cs ->
  forall r ex r', _translations r <> [] ->
    _render_children cs r = (Raise ex, r') -> ex = AttributeError.
Proof.
  induction 1 as [|c cs Hc _ IH]; intros r ex r' Hts Hr; [discriminate |].
  change (_render_children (c :: cs)) with (_render c ;; _render_children cs) in Hr.
  unfold bind in Hr. destruct (_render c r) as [[v|ex1] r1] eqn:E1.
  - destruct (_render_spec c r) as [Hstack _]. rewrite E1 in Hstack. simpl in Hstack.
    eapply (IH r1); [congruence | exact Hr].
  - injection Hr as <- <-. eapply Hc; eauto.
Qed.

Lemma shape_raised (call : Point -> DrawCall) (cs : list Element) (r r' : t)
    (ex : Exception) :
  _translations r <> [] ->
  shape call cs r = (Raise ex, r') ->
  (ex = AttributeError /\ _image r = None) \/
  exists r1, _translations r1 = _translations r /\
             _render_children cs r1 = (Raise ex, r').
Proof.
  intros Hts. rewrite shape_run. destruct (_image r); [| intros [= <- <-]; auto].
  destruct (last_cases (_translations r)) as [? | (ts & p & _ & ->)]; [contradiction |].
  destruct (_render_children cs _) as [[u|ex2] r2] eqn:E; [discriminate |].
  intros [= <- <-]. right. eexists. split; [| exact E]. reflexivity.
Qed.

Lemma _render_raised (e : Element) (r r' : t) (ex : Exception) :
  _translations r <> [] -> _render e r = (Raise ex, r') -> ex = AttributeError.
Proof.
  revert r r' ex. induction e as [e IH] using Element_nested_ind.
  pose proof (children_raised _ IH) as Hcs. clear IH.
  destruct e as [size bg d fr cs | pos cs | b c oc ow cs | ce ra c oc ow cs
                | ce rx ry c oc ow cs | sp ep c w cs | tx f fs pos c an al cs | nm cs];
    simpl in Hcs; intros r r' ex Hts Hr.
  - rewrite _render_Scene in Hr. py_unfold.
    destruct (_render_children cs _) as [[u|ex2] r2] eqn:E; [discriminate |].
    injection Hr as <- <-. eapply Hcs; [| exact E]. exact Hts.
  - rewrite group_run in Hr.
    destruct (last_cases (_translations r)) as [? | (ts & p & _ & Hlast)];
      [contradiction |].
    rewrite (translate_run _ _ _ _ Hlast) in Hr.
    set (r1 := set_translations _ r) in Hr.
    destruct (_render_children_spec cs r1) as [Hstack _].
    destruct (_render_children cs r1) as [[u|ex2] r2] eqn:E; simpl in Hstack.
    + rewrite (pop_snoc r2 (_translations r) (Point_add p pos)) in Hr by exact Hstack.
      discriminate.
    + injection Hr as <- <-. eapply Hcs; [| exact E].
      simpl. destruct (_translations r); discriminate.
  - rewrite _render_Rectangle in Hr.
    apply shape_raised in Hr as [[-> _] | (r1 & H1 & E)]; [reflexivity | | exact Hts].
    eapply Hcs; [| exact E]. congruence.
  - rewrite _render_Circle in Hr.
    apply shape_raised in Hr as [[-> _] | (r1 & H1 & E)]; [reflexivity | | exact Hts].
    eapply Hcs; [| exact E]. congruence.
  - rewrite _render_Ellipse in Hr.
    apply shape_raised in Hr as [[-> _] | (r1 & H1 & E)]; [reflexivity | | exact Hts].
    eapply Hcs; [| exact E]. congruence.
  - rewrite _render_Line in Hr.
    apply shape_raised in Hr as [[-> _] | (r1 & H1 & E)]; [reflexivity | | exact Hts].
    eapply Hcs; [| exact E]. congruence.
  - rewrite _render_Text in Hr.
    apply shape_raised in Hr as [[-> _] | (r1 & H1 & E)]; [reflexivity | | exact Hts].
    eapply Hcs; [| exact E]. congruence.
  - rewrite _render_Other in Hr. injection Hr as <- <-. reflexivity.
Qed.

(** X9.  What [render] does, case by case, on a renderer whose stack is
    not empty.  A root that is no scene does not get rendered: the call
    raises and the renderer is untouched; for a group or a shape it is the
    assertion on the root that fails.  A scene all of whose classes have
    handlers is rendered: the image returned is the one the renderer holds
    afterwards, and the stack is as before.  A scene with a class that has
    no handler raises [AttributeError].  Nothing else is ever raised: no
    [IndexError] from the stack, and the assertion on the result never
    fails. *)
Theorem render_outcomes (e : Element) (r : t) :
  _translations r <> [] ->
  (is_Scene e = false ->
   raised (fst (render e r)) = true /\ snd (render e r) = r) /\
  (is_Scene e = false -> handled e = true ->
   render e r = (Raise AssertionError, r)) /\
  (is_Scene e = true -> renderable e = true ->
   exists img r', render e r = (Ok img, r') /\ _image r' = Some img /\
                  _translations r' = _translations r) /\
  (is_Scene e = true -> renderable e = false ->
   exists r', render e r = (Raise AttributeError, r')) /\
  (forall img r', render e r = (Ok img, r') ->
   is_Scene e = true /\ renderable e = true).
Proof.
  intros Hts. split; [| split; [| split; [| split]]].
  - intros HS. rewrite render_run, HS. split; reflexivity.
  - intros HS _. rewrite render_run, HS. reflexivity.
  - intros HS Hall.
    destruct (render_total_scene e r HS Hall Hts) as (img & r' & Hr).
    destruct (last_cases (_translations r)) as [? | (ts & p & _ & Hlast)];
      [contradiction |].
    destruct (render_paints _ _ _ _ _ Hr Hlast) as (_ & Himg & _ & Hstack).
    eauto.
  - intros HS Hno. rewrite render_run, HS.
    destruct (_render e r) as [[v|ex] r'] eqn:E.
    + apply _render_returned in E as [Hall _]. congruence.
    + apply _render_raised in E as ->; [eauto | exact Hts].
  - intros img r' Hr. rewrite render_run in Hr.
    destruct (is_Scene e); [| discriminate].
    destruct (_render e r) as [[[img'|]|ex] r1] eqn:E; try discriminate.
    apply _render_returned in E as [Hall _]. auto.
Qed.


Lemma Image_draws_nil (img : Image) : Image_draws [] img = img.
Proof. destruct img. unfold Image_draws. simpl. rewrite app_nil_r. reflexivity. Qed.

Lemma Image_draws_app (a b : list DrawCall) (img : Image) :
  Image_draws (a ++ b) img = Image_draws b (Image_draws a img).
Proof. unfold Image_draws. simpl. rewrite app_assoc. reflexivity. Qed.

Lemma Image_draws_cons (c : DrawCall) (l : list DrawCall) (img : Image) :
  Image_draws (c :: l) img = Image_draws l (Image_draw c img).
Proof. apply (Image_draws_app [c] l). Qed.

Lemma paint_children_calls (tr : Point) (cs : list Element) :
  Forall (fun e => forall tr img, scene_free e = true ->
                   paint tr e (Some img) = Some (Image_draws (draw_calls tr e) img)) cs ->
  forall img, forallb scene_free cs = true ->
    paint_children tr cs (Some img) = Some (Image_draws (children_calls tr cs) img).
Proof.
  induction 1 as [|c cs Hc _ IH]; intros img Hfree; simpl.
  - rewrite Image_draws_nil. reflexivity.
  - simpl in Hfree. apply andb_prop in Hfree as [H1 H2].
    rewrite (Hc tr img H1), (IH _ H2), Image_draws_app. reflexivity.
Qed.

(** Without a scene below, painting only appends drawing calls. *)
Lemma paint_calls (e : Element) :
  forall tr img, scene_free e = true ->
    paint tr e (Some img) = Some (Image_draws (draw_calls tr e) img).
Proof.
  induction e as [e IH] using Element_nested_ind.
  destruct e as [size bg d fr cs | pos cs | b c oc ow cs | ce ra c oc ow cs
                | ce rx ry c oc ow cs | sp ep c w cs | tx f fs pos c an al cs | nm cs];
    simpl in IH; intros tr img Hfree; try discriminate;
    try (change (forallb scene_free cs = true) in Hfree).
  - exact (paint_children_calls _ cs IH img Hfree).
  - change (paint_children tr cs (Some (Image_draw
              (draw_rect (Point_add_Bounds tr b) c oc ow) img))
            = Some (Image_draws (draw_rect (Point_add_Bounds tr b) c oc ow
                                   :: children_calls tr cs) img)).
    rewrite Image_draws_cons. exact (paint_children_calls _ cs IH _ Hfree).
  - change (paint_children tr cs (Some (Image_draw
              (draw_circle (Point_add tr ce) ra c oc ow) img))
            = Some (Image_draws (draw_circle (Point_add tr ce) ra c oc ow
                                   :: children_calls tr cs) img)).
    rewrite Image_draws_cons. exact (paint_children_calls _ cs IH _ Hfree).
  - change (paint_children tr cs (Some (Image_draw
              (draw_ellipse (Point_add tr ce) rx ry c oc ow) img))
            = Some (Image_draws (draw_ellipse (Point_add tr ce) rx ry c oc ow
                                   :: children_calls tr cs) img)).
    rewrite Image_draws_cons. exact (paint_children_calls _ cs IH _ Hfree).
  - change (paint_children tr cs (Some (Image_draw
              (draw_line (Point_add tr sp) (Point_add tr ep) c w) img))
            = Some (Image_draws (draw_line (Point_add tr sp) (Point_add tr ep) c w
                                   :: children_calls tr cs) img)).
    rewrite Image_draws_cons. exact (paint_children_calls _ cs IH _ Hfree).
  - change (paint_children tr cs (Some (Image_draw
              (draw_text tx (Point_add tr pos) c (Font_load f fs) an al) img))
            = Some (Image_draws (draw_text tx (Point_add tr pos) c (Font_load f fs)
                                   an al :: children_calls tr cs) img)).
    rewrite Image_draws_cons. exact (paint_children_calls _ cs IH _ Hfree).
  - simpl. rewrite Image_draws_nil. reflexivity.
Qed.

(** X11.  Paint order is tree order.  A handler that returns, on a subtree
    without a scene in it, has appended to the image the drawing calls of
    the subtree, each element before its children and the children in
    their order, and has changed nothing else: calls already on the image
    stay, and so do its size and background and the stack. *)
Theorem shapes_drawn_in_tree_order (e : Element) (r r' : t) (v : option Image)
    (img : Image) (tr : Point) :
  scene_free e = true ->
  _render e r = (Ok v, r') ->
  _image r = Some img ->
  last (_translations r) = Some tr ->
  v = None /\
  r' = set_image (Some (Image_draws (draw_calls tr e) img)) r.
Proof.
  intros Hfree Hr Himg Hlast. split.
  - apply (_render_returned _ _ _ _ Hr). destruct e; try reflexivity; discriminate.
  - destruct (_render_spec e r) as [Hstack Hpaint]. rewrite Hr in Hstack. simpl in Hstack.
    apply renderer_eq; simpl; [| exact Hstack].
    rewrite (Hpaint _ _ _ Hr Hlast), Himg. apply paint_calls, Hfree.
Qed.

(** X12.  The image [render] returns for a scene without scenes below it
    is a new image of the scene's size and background with the drawing
    calls of the children in tree order, at the translation on top of the
    stack; for a scene without children it is [Image.new(size, background)]
    with no call on it. *)
Theorem render_image (size : Point) (bg : Color) (d fr : Z) (cs : list Element)
    (r r' : t) (img : Image) (tr : Point) :
  forallb scene_free cs = true ->
  render (Scene size bg d fr cs) r = (Ok img, r') ->
  last (_translations r) = Some tr ->
  img = mkImage size bg (children_calls tr cs) /\
  r' = set_image (Some img) r /\
  (cs = [] -> img = Image_new size bg).
Proof.
  intros Hfree Hr Hlast.
  destruct (render_paints _ _ _ _ _ Hr Hlast) as (_ & Himg & Hpaint & Hstack).
  rewrite paint_Scene in Hpaint.
  rewrite (paint_children_calls tr cs) in Hpaint.
  - injection Hpaint as ->. repeat split.
    + apply renderer_eq; [exact Himg | exact Hstack].
    + intros ->. reflexivity.
  - apply Forall_forall. intros e _. apply paint_calls.
  - exact Hfree.
Qed.

(** X13.  A frame does not depend on the frames before it: [render] of a
    scene gives the same outcome and leaves the same renderer whatever
    image the renderer held before, so a reused renderer renders as a new
    one does. *)
Theorem render_forgets_previous_image (e : Element) (r1 r2 : t) :
  is_Scene e = true ->
  _translations r1 = _translations r2 ->
  render e r1 = render e r2.
Proof.
  intros HS Hts. destruct e; try discriminate.
  rewrite !render_run. cbn [is_Scene]. rewrite !_render_Scene.
  unfold bind at 1 3. unfold modify.
  replace (set_image (Some (Image_new size background)) r1)
    with (set_image (Some (Image_new size background)) r2); [reflexivity |].
  unfold set_image. rewrite Hts. reflexivity.
Qed.



End RenderExtras.

(** ** The animation driver *)

Module DriverExtras.
Import renderer RenderFacts DriverFacts.


Lemma range_succ (n : Z) : 0 <= n -> range (n + 1) = range n ++ [n].
Proof.
  intros Hn. unfold range. rewrite seqZ_app by lia.
  reflexivity.
Qed.

(** X15.  An inclusive enumeration is the exclusive one followed by one
    more frame, the frame of index [duration * frame_rate]. *)
Theorem inclusive_adds_the_final_frame (duration frame_rate : Z) :
  frame_rate <> 0 ->
  0 <= duration * frame_rate ->
  exists pairs,
    iter_frame_time duration frame_rate false = yields pairs /\
    iter_frame_time duration frame_rate true
    = yields (pairs ++ [(duration * frame_rate,
                         quotient (duration * frame_rate) frame_rate)]) /\
    length pairs = Z.to_nat (duration * frame_rate).
Proof.
  intros Hfr Hpos.
  exists (map (fun i => (i, quotient i frame_rate)) (range (duration * frame_rate))).
  unfold iter_frame_time, calc_frame_count. rewrite !frame_times_nonzero by exact Hfr.
  split; [reflexivity |]. split.
  - rewrite range_succ by exact Hpos. rewrite map_app. reflexivity.
  - rewrite length_map. apply length_seqZ.
Qed.

Section Scenes.
Variable SceneObj : Type.
Variable reset : SceneObj -> SceneObj.
Variable compute : Q -> SceneObj -> SceneObj.
Variable view : SceneObj -> Element.

Abbreviation World := (World SceneObj).
Abbreviation render_animation := (render_animation SceneObj reset compute view).


(** X18.  A scene with a frame rate of zero cannot be animated with the
    final frame included: [render_animation] raises [ZeroDivisionError]
    when the scene has been reset and before it is computed or rendered
    once.  Without the final frame there is no frame at all, and the
    animation is the empty list. *)
Theorem animation_at_zero_frame_rate (w0 : World) size bg duration cs :
  view (reset (scene _ w0)) = Scene size bg duration 0 cs ->
  render_animation true w0
  = (Raise ZeroDivisionError,
     mkWorld _ (reset (scene _ w0)) Renderer.__init__ (history _ w0 ++ [ev_reset])) /\
  render_animation false w0
  = (Ok [],
     mkWorld _ (reset (scene _ w0)) Renderer.__init__ (history _ w0 ++ [ev_reset])).
Proof.
  intros Hview. rewrite !render_animation_run, Hview.
  unfold iter_frame_time, calc_frame_count. rewrite !Z.mul_0_r. split; reflexivity.
Qed.

End Scenes.

End DriverExtras.

(** ** The further properties at sample inputs *)

Module ExtraWitnesses.
Import ElementProperty Element renderer Samples.
Import PropertyExtras TreeExtras RenderExtras DriverExtras.
Local Open Scope string_scope.

Lemma define_then_get_witness :
  get "width" sized = (Ok width_property, sized) /\
  has "width" sized = (Ok true, sized) /\
  has "width" Element.__init__ = (Ok false, Element.__init__).
Proof.
  destruct (define_then_get Element.__init__ sized "width" (PyInt 3) NoTypes PyNone)
    as (Hget & Hhas & Hfree & _).
  - vm_compute. reflexivity.
  - split; [exact Hget |]. split; [exact Hhas | exact Hfree].
Defined.

Lemma set_then_get_witness :
  exists p p',
    get "width" sized = (Ok p, sized) /\
    get "width" (snd (Element.set "width" (PyFloat (1 # 2)) sized))
    = (Ok p', snd (Element.set "width" (PyFloat (1 # 2)) sized)) /\
    value p' = Number (PyFloat (1 # 2)) /\ types p' = types p.
Proof.
  destruct (set_then_get sized (snd (Element.set "width" (PyFloat (1 # 2)) sized))
              "width" (PyFloat (1 # 2)))
    as (p & p' & H1 & H2 & Hv & _ & Ht & _).
  - vm_compute. reflexivity.
  - exists p, p'. auto.
Defined.

Lemma property_is_permanent_witness :
  define "width" (PyStr "wide") NoTypes PyNone
    (foldl (fun e c => exec_prop c e) sized
       [PSet "width" (PyStr "wide"); PDefine "height" (PyInt 4) NoTypes PyNone])
  = (Raise AssertionError,
     foldl (fun e c => exec_prop c e) sized
       [PSet "width" (PyStr "wide"); PDefine "height" (PyInt 4) NoTypes PyNone]).
Proof.
  apply (property_is_permanent
           [PSet "width" (PyStr "wide"); PDefine "height" (PyInt 4) NoTypes PyNone]
           sized "width" width_property).
  vm_compute. reflexivity.
Defined.

Lemma property_filed_under_its_name_witness :
  name (ElementProperty.mk "height" (Number (PyInt 4)) [c_Number] PyNone) = "height".
Proof.
  apply (property_filed_under_its_name
           [PDefine "width" (PyInt 3) NoTypes PyNone;
            PDefine "height" (PyInt 4) NoTypes PyNone]).
  vm_compute. reflexivity.
Defined.

Lemma define_succeeds_iff_witness :
  raised (fst (define "height" PyNone NoTypes PyNone sized)) = true /\
  raised (fst (define "height" (PyInt 4) NoTypes PyNone sized)) = false.
Proof.
  destruct (define_succeeds_iff sized "height" PyNone NoTypes PyNone) as [[Hn _] _].
  destruct (define_succeeds_iff sized "height" (PyInt 4) NoTypes PyNone) as [[_ Hy] Hd].
  split.
  - destruct (raised (fst (define "height" PyNone NoTypes PyNone sized)));
      [reflexivity |].
    destruct (Hn eq_refl) as (_ & HT & _). vm_compute in HT. discriminate.
  - apply Hy. split; [vm_compute; reflexivity |]. split; [reflexivity |].
    destruct (Hd eq_refl) as [H1 H2]. auto.
Defined.

Lemma failed_call_changes_nothing_witness :
  snd (exec (CSet 0%nat "height" (PyInt 4)) two_new) = two_new /\
  snd (exec (CAdd 0%nat 2%nat) two_new) = two_new /\
  snd (exec (CGet 1%nat "width") two_new) = two_new.
Proof.
  split; [| split].
  - apply (failed_call_changes_nothing (CSet 0%nat "height" (PyInt 4)) two_new).
    vm_compute. reflexivity.
  - apply (failed_call_changes_nothing (CAdd 0%nat 2%nat) two_new).
    vm_compute. reflexivity.
  - apply (proj2 (failed_call_changes_nothing (CGet 1%nat "width") two_new)
             1%nat "width").
    left. reflexivity.
Defined.

Lemma calls_keep_to_their_layer_witness :
  snd (exec (CDefine 0%nat "width" (PyInt 3) NoTypes PyNone) two_new) !! 1%nat
  = two_new !! 1%nat /\
  _properties <$> snd (exec (CAdd 0%nat 1%nat) two_new) !! 1%nat
  = _properties <$> two_new !! 1%nat.
Proof.
  split.
  - destruct (calls_keep_to_their_layer
                (CDefine 0%nat "width" (PyInt 3) NoTypes PyNone) two_new 1%nat)
      as (_ & _ & _ & Hother).
    apply Hother. discriminate.
  - apply (calls_keep_to_their_layer (CAdd 0%nat 1%nat) two_new 1%nat).
Defined.

Lemma children_in_order_added_witness :
  children_of (foldl (fun h c => snd (add 0%nat c h)) two_new [1%nat; 0%nat]) 0%nat
  = (children_of two_new 0%nat ++ [1%nat; 0%nat])%list.
Proof.
  apply (children_in_order_added [1%nat; 0%nat] 0%nat two_new).
  - vm_compute. eauto.
  - apply NoDup_cons. split; [| apply NoDup_singleton].
    intros Hin%list_elem_of_singleton. discriminate.
  - intros c Hc. split.
    + apply elem_of_cons in Hc as [-> | Hc]; [vm_compute; eauto |].
      apply list_elem_of_singleton in Hc as ->. vm_compute. eauto.
    + apply TreeWitnesses.two_new_parent.
Defined.

Lemma render_outcomes_witness :
  (raised (fst (Renderer.render (Other "Sprite" []) at_work)) = true /\
   snd (Renderer.render (Other "Sprite" []) at_work) = at_work) /\
  Renderer.render (Group (point 10 10) []) at_work = (Raise AssertionError, at_work) /\
  (exists img r', Renderer.render grouped_scene at_work = (Ok img, r') /\
                  Renderer._image r' = Some img /\
                  Renderer._translations r' = Renderer._translations at_work) /\
  (exists r', Renderer.render (Scene (point 100 100) white 1 10 with_stranger) at_work
              = (Raise AttributeError, r')).
Proof.
  split; [| split; [| split]].
  - apply (render_outcomes (Other "Sprite" []) at_work); [discriminate | reflexivity].
  - apply (render_outcomes (Group (point 10 10) []) at_work);
      [discriminate | reflexivity ..].
  - apply (render_outcomes grouped_scene at_work); [discriminate | reflexivity ..].
  - apply (render_outcomes (Scene (point 100 100) white 1 10 with_stranger) at_work);
      [discriminate | reflexivity ..].
Defined.


Lemma shapes_drawn_in_tree_order_witness :
  @None Image = None /\
  snd (Renderer._render
         (Group (point 10 10)
            [Rectangle square black black 1 [Line (point 0 0) (point 1 1) black 1 []];
             Circle (point 5 5) 2 black black 1 []]) at_work)
  = Renderer.set_image
      (Some (Image_draws
               [draw_rect (bounds_at (point 15 15) 20 20) black black 1;
                draw_line (point 10 10) (point 11 11) black 1;
                draw_circle (point 15 15) 2 black black 1]
               (Image_new (point 100 100) white))) at_work.
Proof.
  apply (shapes_drawn_in_tree_order
           (Group (point 10 10)
              [Rectangle square black black 1 [Line (point 0 0) (point 1 1) black 1 []];
               Circle (point 5 5) 2 black black 1 []])
           at_work _ None (Image_new (point 100 100) white) (point 0 0));
    vm_compute; reflexivity.
Defined.

Lemma render_image_witness :
  fst (Renderer.render grouped_scene at_work)
  = Ok (mkImage (point 100 100) white
          [draw_rect (bounds_at (point 15 15) 20 20) black black 1]).
Proof.
  destruct (Renderer.render grouped_scene at_work) as [[img|ex] r'] eqn:E;
    [| vm_compute in E; discriminate].
  destruct (render_image (point 100 100) white 1 10
              [Group (point 10 10) [Rectangle square black black 1 []]]
              at_work r' img (point 0 0)) as (-> & _).
  - reflexivity.
  - exact E.
  - reflexivity.
  - reflexivity.
Defined.

Lemma render_forgets_previous_image_witness :
  Renderer.render grouped_scene Renderer.__init__ = Renderer.render grouped_scene at_work.
Proof. apply render_forgets_previous_image; reflexivity. Defined.


Lemma inclusive_adds_the_final_frame_witness :
  exists pairs,
    iter_frame_time 1 4 false = yields pairs /\
    iter_frame_time 1 4 true
    = yields (pairs ++ [(1 * 4, quotient (1 * 4) 4)])%list /\
    length pairs = Z.to_nat (1 * 4).
Proof. apply inclusive_adds_the_final_frame; [discriminate | lia]. Defined.


Lemma animation_at_zero_frame_rate_witness :
  fst (render_animation Element id (fun _ s => s) id true
         (mkWorld Element (Scene (point 100 100) white 1 0 []) Renderer.__init__ []))
  = Raise ZeroDivisionError /\
  fst (render_animation Element id (fun _ s => s) id false
         (mkWorld Element (Scene (point 100 100) white 1 0 []) Renderer.__init__ []))
  = Ok [].
Proof.
  destruct (animation_at_zero_frame_rate Element id (fun _ s => s) id
              (mkWorld Element (Scene (point 100 100) white 1 0 []) Renderer.__init__ [])
              (point 100 100) white 1 [] eq_refl) as [H1 H2].
  rewrite H1, H2. split; reflexivity.
Defined.

End ExtraWitnesses.
